(** * node-rfc2397: parsing and composing "data:" URLs

    A shallow embedding of [src/index.js] and [src/rfc3986-regexp.js].

    - JavaScript strings are sequences of UTF-16 code units: [list N].
    - A [Buffer] is a sequence of bytes: [list byte].
    - [throw] is modelled by the [result] type; the two exception classes
      the program can raise are [Error] and [TypeError].
    - Regular expressions are a small datatype with a derivative matcher;
      the patterns of the source are transcribed constructor by
      constructor.
    - The functions of the runtime the source calls ([Buffer.from],
      [toString], [split], [reduce], the [in] operator, ...) are modelled
      in the module [Runtime]. *)

From Stdlib Require Import Strings.String Strings.Ascii Strings.Byte.
From Stdlib Require Import List NArith ZArith Bool Lia.
Import ListNotations.

Set Implicit Arguments.
Local Open Scope N_scope.
Local Open Scope list_scope.

(* ================================================================= *)
(** ** Strings, bytes and exceptions *)

Module Js.

(** A UTF-16 code unit. *)
Definition char := N.

Definition jsstring := list char.

Definition bytes := list byte.

(** Literal text of the source, written as a Rocq string. *)
Definition str (s : string) : jsstring :=
  List.map N_of_ascii (list_ascii_of_string s).

(** The byte with value [n mod 256]. *)
Definition byte_of_N (n : N) : byte :=
  match Byte.of_N (n mod 256) with
  | Some b => b
  | None => x00
  end.

Fixpoint string_eqb (a b : jsstring) : bool :=
  match a, b with
  | [], [] => true
  | x :: a', y :: b' => (x =? y) && string_eqb a' b'
  | _, _ => false
  end.

Inductive exn :=
| Error (msg : jsstring)
| TypeError (msg : jsstring).

Inductive result (A : Type) :=
| Ok (a : A)
| Throw (e : exn).

Arguments Ok {A} a.
Arguments Throw {A} e.

Definition bind {A B} (m : result A) (k : A -> result B) : result B :=
  match m with
  | Ok a => k a
  | Throw e => Throw e
  end.

End Js.

Import Js.

Notation "x <- m ;; k" := (bind m (fun x => k))
  (at level 61, m at next level, right associativity).

(* ================================================================= *)
(** ** Regular expressions *)

Module Regex.

(** The fragment of the regular expression syntax the program uses:
    character classes, concatenation, alternation and the star. *)
Inductive regex :=
| Void
| Eps
| Class (p : char -> bool)
| Cat (r1 r2 : regex)
| Alt (r1 r2 : regex)
| Star (r : regex).

(** [r?] *)
Definition Opt (r : regex) : regex := Alt r Eps.

(** The strings a pattern denotes. *)
Inductive lang : regex -> jsstring -> Prop :=
| LEps : lang Eps []
| LClass p c : p c = true -> lang (Class p) [c]
| LCat r1 r2 s1 s2 : lang r1 s1 -> lang r2 s2 -> lang (Cat r1 r2) (s1 ++ s2)
| LAltL r1 r2 s : lang r1 s -> lang (Alt r1 r2) s
| LAltR r1 r2 s : lang r2 s -> lang (Alt r1 r2) s
| LStarNil r : lang (Star r) []
| LStarApp r s1 s2 : lang r s1 -> lang (Star r) s2 -> lang (Star r) (s1 ++ s2).

Fixpoint nullable (r : regex) : bool :=
  match r with
  | Void => false
  | Eps => true
  | Class _ => false
  | Cat r1 r2 => nullable r1 && nullable r2
  | Alt r1 r2 => nullable r1 || nullable r2
  | Star _ => true
  end.

Fixpoint deriv (c : char) (r : regex) : regex :=
  match r with
  | Void => Void
  | Eps => Void
  | Class p => if p c then Eps else Void
  | Cat r1 r2 =>
      if nullable r1
      then Alt (Cat (deriv c r1) r2) (deriv c r2)
      else Cat (deriv c r1) r2
  | Alt r1 r2 => Alt (deriv c r1) (deriv c r2)
  | Star r1 => Cat (deriv c r1) (Star r1)
  end.

(** [full_match r s]: the anchored pattern [^r$] matches [s].  Without
    the [m] flag, [^] and [$] match only at the two ends of the input. *)
Fixpoint full_match (r : regex) (s : jsstring) : bool :=
  match s with
  | [] => nullable r
  | c :: s' => full_match (deriv c r) s'
  end.

(** Any code unit at all. *)
Definition any : regex := Class (fun _ => true).

(** [search r s]: the unanchored pattern [r] matches somewhere in [s],
    which is what [s.match(r)] tests when its result is used as a
    condition. *)
Definition search (r : regex) (s : jsstring) : bool :=
  full_match (Cat (Star any) (Cat r (Star any))) s.

End Regex.

Import Regex.

(* ================================================================= *)
(** ** src/rfc3986-regexp.js *)

Module Rfc3986.

(** The code unit of an ASCII character. *)
Definition ch (a : ascii) : char := N_of_ascii a.

Definition in_range (lo hi : ascii) (c : char) : bool :=
  (ch lo <=? c) && (c <=? ch hi).

Definition is_char (a : ascii) (c : char) : bool := c =? ch a.

(** The class [[A-Za-z0-9\-\._~]]. *)
Definition is_unreserved (c : char) : bool :=
  in_range "A" "Z" c || in_range "a" "z" c || in_range "0" "9" c
  || is_char "-" c || is_char "." c || is_char "_" c || is_char "~" c.

(** The class [[A-Fa-f0-9]]. *)
Definition is_hexdig (c : char) : bool :=
  in_range "A" "F" c || in_range "a" "f" c || in_range "0" "9" c.

(** [export const unreserved = /[A-Za-z0-9\-\._~]/;] *)
Definition unreserved : regex := Class is_unreserved.

(** [export const escaped = /%[A-Fa-f0-9]{2}/;] *)
Definition escaped : regex :=
  Cat (Class (is_char "%")) (Cat (Class is_hexdig) (Class is_hexdig)).

End Rfc3986.

Import Rfc3986.

(* ================================================================= *)
(** ** The runtime: strings, buffers and objects *)

Module Runtime.

(** *** String.prototype.split with a string separator of one code unit *)

(** [split_on sep piece s]: the pieces of [piece ++ s] between the
    occurrences of [sep] in [s]; [s.split(sep)] is [split_on sep [] s].
    The result is never the empty array. *)
Fixpoint split_on (sep : char) (piece s : jsstring) : list jsstring :=
  match s with
  | [] => [piece]
  | c :: rest =>
      if c =? sep then piece :: split_on sep [] rest
      else split_on sep (piece ++ [c]) rest
  end.

Definition split (sep : ascii) (s : jsstring) : list jsstring :=
  split_on (ch sep) [] s.

(** [s.slice(1)] *)
Definition slice1 (s : jsstring) : jsstring := tl s.

(** *** Buffer.from(string, encoding) and buffer.toString(encoding) *)

Definition hex_value (c : char) : option N :=
  if in_range "0" "9" c then Some (c - ch "0")
  else if in_range "a" "f" c then Some (c - ch "a" + 10)
  else if in_range "A" "F" c then Some (c - ch "A" + 10)
  else None.

(** [Buffer.from(s, "hex")]: one byte for each pair of hexadecimal
    digits, stopping at the first pair that is not one. *)
Fixpoint Buffer_from_hex (s : jsstring) : bytes :=
  match s with
  | h1 :: h2 :: rest =>
      match hex_value h1, hex_value h2 with
      | Some a, Some b => byte_of_N (16 * a + b) :: Buffer_from_hex rest
      | _, _ => []
      end
  | _ => []
  end.

(** [Buffer.from(s, "ascii")]: the low eight bits of every code unit. *)
Definition Buffer_from_ascii (s : jsstring) : bytes :=
  List.map byte_of_N s.

(** The UTF-8 bytes of a code point. *)
Definition utf8_of_code_point (cp : N) : bytes :=
  if cp <? 0x80 then [byte_of_N cp]
  else if cp <? 0x800 then
    [byte_of_N (0xC0 + cp / 0x40); byte_of_N (0x80 + cp mod 0x40)]
  else if cp <? 0x10000 then
    [byte_of_N (0xE0 + cp / 0x1000);
     byte_of_N (0x80 + (cp / 0x40) mod 0x40);
     byte_of_N (0x80 + cp mod 0x40)]
  else
    [byte_of_N (0xF0 + cp / 0x40000);
     byte_of_N (0x80 + (cp / 0x1000) mod 0x40);
     byte_of_N (0x80 + (cp / 0x40) mod 0x40);
     byte_of_N (0x80 + cp mod 0x40)].

Definition is_high_surrogate (c : char) : bool :=
  (0xD800 <=? c) && (c <=? 0xDBFF).

Definition is_low_surrogate (c : char) : bool :=
  (0xDC00 <=? c) && (c <=? 0xDFFF).

(** U+FFFD in UTF-8. *)
Definition replacement_bytes : bytes := [xef; xbf; xbd].

(** [Buffer.from(s)] for a string [s] (encoding "utf8"): a surrogate
    pair is one code point, a lone surrogate becomes U+FFFD. *)
Fixpoint Buffer_from_utf8 (s : jsstring) : bytes :=
  match s with
  | [] => []
  | c :: rest =>
      if is_high_surrogate c then
        match rest with
        | d :: rest' =>
            if is_low_surrogate d then
              utf8_of_code_point
                (0x10000 + (c - 0xD800) * 0x400 + (d - 0xDC00))
              ++ Buffer_from_utf8 rest'
            else replacement_bytes ++ Buffer_from_utf8 rest
        | [] => replacement_bytes
        end
      else if is_low_surrogate c then
        replacement_bytes ++ Buffer_from_utf8 rest
      else utf8_of_code_point c ++ Buffer_from_utf8 rest
  end.

(** The state of the UTF-8 decoder between two bytes: the code point
    under construction, the number of continuation bytes still needed,
    and the range the next continuation byte has to lie in. *)
Record utf8_state := {
  u_cp : N;
  u_needed : N;
  u_lower : N;
  u_upper : N
}.

Definition utf8_init : utf8_state :=
  {| u_cp := 0; u_needed := 0; u_lower := 0x80; u_upper := 0xBF |}.

(** A byte read in the initial state: code points emitted at once, and
    the next state. *)
Definition utf8_lead (n : N) : list N * utf8_state :=
  if n <=? 0x7F then ([n], utf8_init)
  else if (0xC2 <=? n) && (n <=? 0xDF) then
    ([], {| u_cp := n mod 0x20; u_needed := 1;
            u_lower := 0x80; u_upper := 0xBF |})
  else if (0xE0 <=? n) && (n <=? 0xEF) then
    ([], {| u_cp := n mod 0x10; u_needed := 2;
            u_lower := if n =? 0xE0 then 0xA0 else 0x80;
            u_upper := if n =? 0xED then 0x9F else 0xBF |})
  else if (0xF0 <=? n) && (n <=? 0xF4) then
    ([], {| u_cp := n mod 0x08; u_needed := 3;
            u_lower := if n =? 0xF0 then 0x90 else 0x80;
            u_upper := if n =? 0xF4 then 0x8F else 0xBF |})
  else ([0xFFFD], utf8_init).

(** The code points of a byte sequence; every maximal ill-formed
    subsequence is replaced by U+FFFD. *)
Fixpoint utf8_code_points (st : utf8_state) (bs : bytes) : list N :=
  match bs with
  | [] => if u_needed st =? 0 then [] else [0xFFFD]
  | b :: rest =>
      let n := Byte.to_N b in
      if u_needed st =? 0 then
        let (out, st') := utf8_lead n in
        out ++ utf8_code_points st' rest
      else if (n <? u_lower st) || (u_upper st <? n) then
        let (out, st') := utf8_lead n in
        0xFFFD :: out ++ utf8_code_points st' rest
      else
        let cp := u_cp st * 0x40 + n mod 0x40 in
        if u_needed st =? 1 then cp :: utf8_code_points utf8_init rest
        else utf8_code_points
               {| u_cp := cp; u_needed := u_needed st - 1;
                  u_lower := 0x80; u_upper := 0xBF |} rest
  end.

(** The UTF-16 code units of a code point. *)
Definition utf16_of_code_point (cp : N) : jsstring :=
  if cp <? 0x10000 then [cp]
  else [0xD800 + (cp - 0x10000) / 0x400; 0xDC00 + (cp - 0x10000) mod 0x400].

(** [buffer.toString()] (encoding "utf8"). *)
Definition Buffer_toString (b : bytes) : jsstring :=
  flat_map utf16_of_code_point (utf8_code_points utf8_init b).

(** *** Number.prototype.toString(16) on a byte *)

Definition hex_digit (n : N) : char :=
  if n <? 10 then ch "0" + n else ch "a" + (n - 10).

(** [byte.toString(16)] for [0 <= byte < 256]: lower case, no leading
    zero. *)
Definition toString16 (n : N) : jsstring :=
  if n <? 16 then [hex_digit n] else [hex_digit (n / 16); hex_digit (n mod 16)].

(** *** Base64 *)

Definition base64_digit (n : N) : char :=
  if n <? 26 then ch "A" + n
  else if n <? 52 then ch "a" + (n - 26)
  else if n <? 62 then ch "0" + (n - 52)
  else if n =? 62 then ch "+"
  else ch "/".

(** [buffer.toString("base64")]: RFC 4648 with padding, no line breaks. *)
Fixpoint Buffer_toString_base64 (b : bytes) : jsstring :=
  match b with
  | [] => []
  | [x] =>
      let x := Byte.to_N x in
      [base64_digit (x / 4); base64_digit (x mod 4 * 16); ch "="; ch "="]
  | [x; y] =>
      let x := Byte.to_N x in
      let y := Byte.to_N y in
      [base64_digit (x / 4); base64_digit (x mod 4 * 16 + y / 16);
       base64_digit (y mod 16 * 4); ch "="]
  | x :: y :: z :: rest =>
      let x := Byte.to_N x in
      let y := Byte.to_N y in
      let z := Byte.to_N z in
      base64_digit (x / 4) :: base64_digit (x mod 4 * 16 + y / 16)
      :: base64_digit (y mod 16 * 4 + z / 64) :: base64_digit (z mod 64)
      :: Buffer_toString_base64 rest
  end.

(** The value of a base64 digit; the decoder of the runtime reads the
    URL-safe digits [-] and [_] too. *)
Definition base64_value (c : char) : option N :=
  if in_range "A" "Z" c then Some (c - ch "A")
  else if in_range "a" "z" c then Some (c - ch "a" + 26)
  else if in_range "0" "9" c then Some (c - ch "0" + 52)
  else if is_char "+" c || is_char "-" c then Some 62
  else if is_char "/" c || is_char "_" c then Some 63
  else None.

(** The six-bit values of the digits before the padding; code units
    that are no digits are skipped. *)
Fixpoint base64_sextets (s : jsstring) : list N :=
  match s with
  | [] => []
  | c :: rest =>
      if is_char "=" c then []
      else match base64_value c with
           | Some v => v :: base64_sextets rest
           | None => base64_sextets rest
           end
  end.

(** Four digits give three bytes; a last group of three digits gives
    two bytes and one of two digits gives one byte. *)
Fixpoint base64_bytes (l : list N) : bytes :=
  match l with
  | a :: b :: c :: d :: rest =>
      byte_of_N (a * 4 + b / 16) :: byte_of_N (b mod 16 * 16 + c / 4)
      :: byte_of_N (c mod 4 * 64 + d) :: base64_bytes rest
  | [a; b; c] => [byte_of_N (a * 4 + b / 16); byte_of_N (b mod 16 * 16 + c / 4)]
  | [a; b] => [byte_of_N (a * 4 + b / 16)]
  | _ => []
  end.

(** [Buffer.from(s, "base64")] *)
Definition Buffer_from_base64 (s : jsstring) : bytes :=
  base64_bytes (base64_sextets s).

(** *** Objects with string values *)

(** The own enumerable properties of an object, in the order
    [Object.keys] lists them. *)
Definition jsobject := list (jsstring * jsstring).

(** The property names every object literal inherits from
    [Object.prototype]. *)
Definition object_prototype_names : list jsstring :=
  [str "constructor"; str "hasOwnProperty"; str "isPrototypeOf";
   str "propertyIsEnumerable"; str "toLocaleString"; str "toString";
   str "valueOf"; str "__proto__"; str "__defineGetter__";
   str "__defineSetter__"; str "__lookupGetter__"; str "__lookupSetter__"].

Definition inherited (k : jsstring) : bool :=
  existsb (string_eqb k) object_prototype_names.

Fixpoint has_own (o : jsobject) (k : jsstring) : bool :=
  match o with
  | [] => false
  | (k', _) :: o' => string_eqb k k' || has_own o' k
  end.

(** [k in o]: own properties and those found along the prototype chain. *)
Definition has_property (o : jsobject) (k : jsstring) : bool :=
  has_own o k || inherited k.

(** [o[k]] for an own property. *)
Fixpoint get_own (o : jsobject) (k : jsstring) : option jsstring :=
  match o with
  | [] => None
  | (k', v) :: o' => if string_eqb k k' then Some v else get_own o' k
  end.

(** [o[k] = v] for a name [k] that is not inherited: an own property is
    overwritten in place, a new one is added last.  (The runtime lists
    array-index names before the others; objects are compared by their
    properties, not by this order.) *)
Fixpoint set_own (o : jsobject) (k v : jsstring) : jsobject :=
  match o with
  | [] => [(k, v)]
  | (k', v') :: o' =>
      if string_eqb k k' then (k', v) :: o' else (k', v') :: set_own o' k v
  end.

(** [Object.keys(o)] *)
Definition Object_keys (o : jsobject) : list jsstring := List.map fst o.

(** *** Array.prototype.reduce with a callback that may throw *)

Fixpoint reduce {A B} (f : B -> A -> result B) (l : list A) (init : B)
  : result B :=
  match l with
  | [] => Ok init
  | x :: l' => acc <- f init x ;; reduce f l' acc
  end.

(** [a.join(sep)] *)
Fixpoint join (sep : jsstring) (l : list jsstring) : jsstring :=
  match l with
  | [] => []
  | [x] => x
  | x :: l' => x ++ sep ++ join sep l'
  end.

End Runtime.

Import Runtime.

(* ================================================================= *)
(** ** src/index.js *)

Module Index.

(** What a field typed [any] may hold, as far as the program looks. *)
Inductive value :=
| VUndefined
| VString (s : jsstring)
| VBuffer (b : bytes).

(** [Buffer.isBuffer(v)] *)
Definition Buffer_isBuffer (v : value) : bool :=
  match v with
  | VBuffer _ => true
  | _ => false
  end.

(** The [Info] typedef.  [base64] is [None] when the property is absent
    ([parseSync] only ever assigns [true] to it); [mime] is [None] when
    it is [undefined]. *)
Record Info := {
  base64 : option bool;
  mime : option jsstring;
  parameters : jsobject;
  data : value
}.

(** Truthiness of [info.base64]. *)
Definition truthy (b : option bool) : bool :=
  match b with
  | Some true => true
  | _ => false
  end.

(** An argument of type [string | Buffer]. *)
Inductive arg :=
| ArgString (s : jsstring)
| ArgBuffer (b : bytes).

(** [Buffer.from(arg)] *)
Definition Buffer_from (a : arg) : bytes :=
  match a with
  | ArgString s => Buffer_from_utf8 s
  | ArgBuffer b => b
  end.

(** *** pct_decode *)

(** ["^(?:" + unreserved.source + "|" + escaped.source + ")*$"] *)
Definition pct_correctly_encoded : regex := Star (Alt unreserved escaped).

(** ["(" + escaped.source + ")"] *)
Definition splitter : regex := escaped.

(** [urlencoded.split(splitter)]: the text is cut at every match of
    [splitter], found from left to right, and the capture group puts
    each match into the result between the pieces around it.  A match
    is three code units long. *)
Fixpoint split_escaped (piece s : jsstring) : list jsstring :=
  match s with
  | [] => [piece]
  | c :: rest =>
      match rest with
      | h1 :: h2 :: rest' =>
          if full_match splitter [c; h1; h2]
          then piece :: [c; h1; h2] :: split_escaped [] rest'
          else split_escaped (piece ++ [c]) rest
      | _ => split_escaped (piece ++ [c]) rest
      end
  end.

(** The callback of [map] in [pct_decode]. *)
Definition pct_decode_part (part : jsstring) : bytes :=
  if search escaped part
  then Buffer_from_hex (slice1 part)
  else Buffer_from_ascii part.

Definition pct_decode (urlencoded : jsstring) : result bytes :=
  if negb (full_match pct_correctly_encoded urlencoded)
  then Throw (Error (str "malformed data"))
  else Ok (concat (List.map pct_decode_part (split_escaped [] urlencoded))).

(** *** pct_encode *)

(** The callback of [reduce] in [pct_encode]. *)
Definition pct_encode_byte (s : jsstring) (b : byte) : jsstring :=
  let char := [Byte.to_N b] in
  if search unreserved char then s ++ char
  else
    let hex := toString16 (Byte.to_N b) in
    let hex := if Nat.eqb (length hex) 1 then str "0" ++ hex else hex in
    s ++ str "%" ++ hex.

Definition pct_encode (a : arg) : jsstring :=
  fold_left pct_encode_byte (Buffer_from a) (str "").

(** *** base64_decode *)

(** The class [[A-Za-z0-9+\/]]. *)
Definition is_base64_digit (c : char) : bool :=
  in_range "A" "Z" c || in_range "a" "z" c || in_range "0" "9" c
  || is_char "+" c || is_char "/" c.

(** [/^[A-Za-z0-9+\/]*=?=?$/] *)
Definition base64_correctly_encoded : regex :=
  Cat (Star (Class is_base64_digit))
      (Cat (Opt (Class (is_char "="))) (Opt (Class (is_char "=")))).

Definition base64_decode (base64encoded : jsstring) : result bytes :=
  if negb (N.of_nat (length base64encoded) mod 4 =? 0)
     || negb (full_match base64_correctly_encoded base64encoded)
  then Throw (Error (str "malformed data"))
  else Ok (Buffer_from_base64 base64encoded).

(** *** base64_encode *)

Definition base64_encode (a : arg) : jsstring :=
  Buffer_toString_base64 (Buffer_from a).

(** *** parseSync *)

(** [.] matches every code unit but the line terminators. *)
Definition is_line_terminator (c : char) : bool :=
  (c =? 0x0A) || (c =? 0x0D) || (c =? 0x2028) || (c =? 0x2029).

Definition dot : regex := Class (fun c => negb (is_line_terminator c)).

(** The pattern that matches exactly the given text. *)
Fixpoint literal (s : jsstring) : regex :=
  match s with
  | [] => Eps
  | c :: s' => Cat (Class (N.eqb c)) (literal s')
  end.

(** The pattern of line 101 without its groups: the text [data:], any
    number of [.], a comma, any number of [.], between [^] and [$]. *)
Definition dataurl_pattern : regex :=
  Cat (literal (str "data:"))
      (Cat (Star dot) (Cat (Class (is_char ",")) (Star dot))).

Fixpoint strip_prefix (p s : jsstring) : option jsstring :=
  match p, s with
  | [], _ => Some s
  | x :: p', y :: s' => if x =? y then strip_prefix p' s' else None
  | _ :: _, [] => None
  end.

(** The text before and after the first occurrence of [c]. *)
Fixpoint break_at (c : char) (s : jsstring) : option (jsstring * jsstring) :=
  match s with
  | [] => None
  | x :: s' =>
      if x =? c then Some ([], s')
      else match break_at c s' with
           | Some (a, b) => Some (x :: a, b)
           | None => None
           end
  end.

(** [dataurl.match(...)] of line 101: [None] for [null], and the two
    capture groups otherwise.  The first group is lazy: it is the
    shortest text for which the whole pattern matches, so it ends at the
    first comma. *)
Definition match_dataurl (dataurl : jsstring)
  : option (jsstring * jsstring) :=
  if full_match dataurl_pattern dataurl then
    match strip_prefix (str "data:") dataurl with
    | Some rest => break_at (ch ",") rest
    | None => None
    end
  else None.

(** [a[a.length - 1]], [undefined] on the empty array. *)
Definition last_element (a : list jsstring) : option jsstring :=
  List.last (List.map Some a) None.

(** The array after [a.pop()]. *)
Definition pop (a : list jsstring) : list jsstring := removelast a.

(** [a.shift()]: the removed element ([undefined] on the empty array)
    and the array that is left. *)
Definition shift (a : list jsstring) : option jsstring * list jsstring :=
  match a with
  | [] => (None, [])
  | x :: a' => (Some x, a')
  end.

(** [x === "base64"] for [x] a string or [undefined]. *)
Definition is_base64_token (x : option jsstring) : bool :=
  match x with
  | Some s => string_eqb s (str "base64")
  | None => false
  end.

(** The callback of [reduce] in [parseSync]. *)
Definition parse_parameter (parameters : jsobject) (parameter : jsstring)
  : result jsobject :=
  let splitted := split "=" parameter in
  match splitted with
  | [s0; s1] =>
      a <- pct_decode s0 ;;
      let attribute := Buffer_toString a in
      v <- pct_decode s1 ;;
      let value := Buffer_toString v in
      if negb (has_property parameters attribute)
      then Ok (set_own parameters attribute value)
      else Ok parameters
  | _ => Throw (Error (str "invalid dataurl parameter"))
  end.

(** Lines 136 to 146: the defaults for an omitted media type.  [mime] is
    already known to be a string here. *)
Definition apply_defaults (mime : jsstring) (parameters : jsobject)
  : jsstring * jsobject :=
  let mime_omitted := Nat.eqb (length mime) 0 in
  if mime_omitted && Nat.eqb (length (Object_keys parameters)) 0 then
    (str "text/plain", set_own parameters (str "charset") (str "US-ASCII"))
  else if mime_omitted && has_property parameters (str "charset") then
    (str "text/plain", parameters)
  else (mime, parameters).

(** Lines 106 to 116: the flag, the media type token and the parameter
    tokens of the first capture group. *)
Definition mediatype_tokens (group1 : jsstring)
  : option bool * option jsstring * list jsstring :=
  let mediatype := split ";" group1 in
  let (info_base64, mediatype) :=
    if is_base64_token (last_element mediatype)
    then (Some true, pop mediatype)
    else (None, mediatype) in
  let (info_mime, mediatype) := shift mediatype in
  (info_base64, info_mime, mediatype).

(** Lines 101 to 134: the flag, the media type token and the parameters,
    together with the text of the payload. *)
Definition parse_header (dataurl : jsstring)
  : result (option bool * option jsstring * jsobject * jsstring) :=
  match match_dataurl dataurl with
  | None => Throw (Error (str "malformed dataurl"))
  | Some (group1, group2) =>
      let data := group2 in
      let '(info_base64, info_mime, mediatype) := mediatype_tokens group1 in
      info_parameters <- reduce parse_parameter mediatype [] ;;
      Ok (info_base64, info_mime, info_parameters, data)
  end.

Definition parseSync (dataurl : jsstring) : result Info :=
  h <- parse_header dataurl ;;
  let '(info_base64, info_mime, info_parameters, data) := h in
  match info_mime with
  | None =>
      (* [info.mime.length] with [info.mime] undefined *)
      Throw (TypeError
               (str "Cannot read properties of undefined (reading 'length')"))
  | Some m =>
      let (info_mime, info_parameters) := apply_defaults m info_parameters in
      info_data <- (if truthy info_base64 then base64_decode else pct_decode)
                     data ;;
      Ok {| base64 := info_base64;
            mime := Some info_mime;
            parameters := info_parameters;
            data := VBuffer info_data |}
  end.

(** *** composeSync *)

(** [info.mime || ""] *)
Definition mime_or_empty (m : option jsstring) : jsstring :=
  match m with
  | Some s => s
  | None => str ""
  end.

(** The token [composeSync] pushes for one parameter. *)
Definition compose_parameter (kv : jsstring * jsstring) : jsstring :=
  let attribute := pct_encode (ArgString (fst kv)) in
  let value := pct_encode (ArgString (snd kv)) in
  attribute ++ str "=" ++ value.

Definition composeSync (info : Info) : result jsstring :=
  match data info with
  | VBuffer info_data =>
      let mediatype :=
        [mime_or_empty (mime info)]
        ++ List.map compose_parameter (parameters info) in
      let (base64, encode) :=
        if truthy (base64 info)
        then (str ";base64", base64_encode)
        else (str "", pct_encode) in
      let data := encode (ArgBuffer info_data) in
      Ok (str "data:" ++ join (str ";") mediatype ++ base64
          ++ str "," ++ data)
  | _ => Throw (TypeError (str "expected info.data to be a Buffer"))
  end.

End Index.

Import Index.

(* ================================================================= *)
(** ** The patterns and codecs in the words of the specification *)

Module Spec.

(** A token of percent-encoded text: one unreserved character, or a
    percent sign followed by two hexadecimal digits. *)
Inductive pct_token : jsstring -> Prop :=
| TokUnreserved c :
    is_unreserved c = true -> pct_token [c]
| TokEscaped h1 h2 :
    is_hexdig h1 = true -> is_hexdig h2 = true ->
    pct_token [ch "%"; h1; h2].

(** The whole text is a sequence of tokens. *)
Definition pct_wellformed (s : jsstring) : Prop :=
  exists toks, Forall pct_token toks /\ s = concat toks.

(** The value of a hexadecimal digit. *)
Definition digit_value (c : char) : N :=
  if c <? 58 then c - 48 else if c <? 71 then c - 55 else c - 87.

(** The byte a token stands for: the code of an unreserved character,
    the value [XX] of a triplet [%XX]. *)
Definition token_byte (t : jsstring) : bytes :=
  match t with
  | [c] => [byte_of_N c]
  | [_; h1; h2] => [byte_of_N (16 * digit_value h1 + digit_value h2)]
  | _ => []
  end.

(** The standard alphabet followed by at most two padding characters. *)
Definition base64_wellformed (s : jsstring) : Prop :=
  exists body pad,
    s = body ++ pad
    /\ Forall (fun c => is_base64_digit c = true) body
    /\ (pad = [] \/ pad = [ch "="] \/ pad = [ch "="; ch "="]).

(** The number of occurrences of a character. *)
Definition count_char (c : char) (s : jsstring) : nat :=
  length (filter (N.eqb c) s).

End Spec.

Import Spec.

(* ================================================================= *)
(** ** Conditions on records and the shape of composed text *)

Module Conditions.

(** Text without lone surrogates. *)
Fixpoint well_formed_utf16 (s : jsstring) : bool :=
  match s with
  | [] => true
  | c :: rest =>
      if is_high_surrogate c then
        match rest with
        | d :: rest' => is_low_surrogate d && well_formed_utf16 rest'
        | [] => false
        end
      else negb (is_low_surrogate c) && (c <? 0x10000)
           && well_formed_utf16 rest
  end.

(** A Unicode scalar value: a code point that is no surrogate. *)
Definition is_scalar (cp : N) : bool :=
  (cp <? 0x110000) && negb ((0xD800 <=? cp) && (cp <=? 0xDFFF)).

(** A media type that holds no comma, no semicolon and no line
    terminator. *)
Definition mime_safe (m : jsstring) : bool :=
  forallb
    (fun c => negb (is_char "," c || is_char ";" c || is_line_terminator c))
    m.

(** Parameters whose names are not inherited from [Object.prototype] and
    whose names and values are well-formed UTF-16. *)
Definition parameters_ok (ps : jsobject) : bool :=
  forallb
    (fun kv =>
       negb (inherited (fst kv))
       && well_formed_utf16 (fst kv) && well_formed_utf16 (snd kv))
    ps.

(** The characters [pct_encode] writes. *)
Definition is_pct_char (c : char) : bool :=
  is_unreserved c || is_char "%" c.

(** The tokens [composeSync] joins with [;]. *)
Definition composed_tokens (m : jsstring) (ps : jsobject) (flag : bool)
  : list jsstring :=
  (m :: List.map compose_parameter ps)
  ++ (if flag then [str "base64"] else []).

End Conditions.

Import Conditions.

(* ================================================================= *)
(** ** Sample records *)

Module Samples.

(** Records outside the conditions of the inverse property. *)
Definition comma_mime_record : Info :=
  {| base64 := Some true;
     mime := Some (str "a,b");
     parameters := [];
     data := VBuffer [x61] |}.

Definition inherited_name_record : Info :=
  {| base64 := Some true;
     mime := Some (str "text/plain");
     parameters := [(str "toString", str "x")];
     data := VBuffer [x61] |}.

Definition base64_mime_record : Info :=
  {| base64 := None;
     mime := Some (str "base64");
     parameters := [];
     data := VBuffer [x61] |}.

Definition lone_surrogate_record : Info :=
  {| base64 := Some true;
     mime := Some (str "text/plain");
     parameters := [(str "a", [0xD800])];
     data := VBuffer [x61] |}.

(** A record with an empty media type and the parameter
    [charset=utf-8]. *)
Definition charset_only_record : Info :=
  {| base64 := Some true;
     mime := Some (str "");
     parameters := [(str "charset", str "utf-8")];
     data := VBuffer [x61; x62; x63] |}.

End Samples.

Import Samples.

(* ================================================================= *)
(** ** src/index.js: the promise-returning wrappers *)

Module Async.

(** The state a promise settles in. *)
Inductive promise (A : Type) :=
| Fulfilled (a : A)
| Rejected (e : exn).

Arguments Fulfilled {A} a.
Arguments Rejected {A} e.

(** [new Promise((resolve, reject) => { try { resolve(f()) }
    catch (err) { reject(err) } })]: the executor runs at once, and the
    promise is fulfilled with what [f] returns or rejected with what it
    throws. *)
Definition settle {A} (r : result A) : promise A :=
  match r with
  | Ok a => Fulfilled a
  | Throw e => Rejected e
  end.

Definition parse (dataurl : jsstring) : promise Info :=
  settle (parseSync dataurl).

Definition compose (info : Info) : promise jsstring :=
  settle (composeSync info).

End Async.

Import Async.

(* ================================================================= *)
(** ** Invariants of the decoders *)

Module Invariants.

(** Every code point from [a] to [b] is a Unicode scalar value. *)
Definition scalar_range (a b : N) : Prop :=
  a <= b /\ (b < 0xD800 \/ (0xDFFF < a /\ b < 0x110000)).

(** A state of the UTF-8 decoder from which only scalar values can be
    completed: the continuation bytes still to come can only lead to
    code points of a range of scalar values. *)
Definition utf8_state_ok (st : utf8_state) : Prop :=
  0x80 <= u_lower st /\ u_lower st <= u_upper st /\ u_upper st <= 0xBF
  /\ (u_needed st = 0
      \/ (u_needed st = 1
          /\ scalar_range (u_cp st * 0x40 + u_lower st mod 0x40)
               (u_cp st * 0x40 + u_upper st mod 0x40))
      \/ (u_needed st = 2
          /\ scalar_range ((u_cp st * 0x40 + u_lower st mod 0x40) * 0x40)
               ((u_cp st * 0x40 + u_upper st mod 0x40) * 0x40 + 0x3F))
      \/ (u_needed st = 3
          /\ scalar_range ((u_cp st * 0x40 + u_lower st mod 0x40) * 0x1000)
               ((u_cp st * 0x40 + u_upper st mod 0x40) * 0x1000 + 0xFFF))).

(** The text [parseSync] accepts as a whole: [data:], a media type
    segment, a comma and a payload, without a line terminator. *)
Definition dataurl_shaped (s : jsstring) : Prop :=
  exists g1 g2,
    s = str "data:" ++ g1 ++ ch "," :: g2
    /\ Forall (fun c => is_line_terminator c = false) g1
    /\ Forall (fun c => is_line_terminator c = false) g2.

(** The exceptions [parseSync] throws on purpose. *)
Definition malformed_dataurl : exn := Error (str "malformed dataurl").
Definition invalid_parameter : exn := Error (str "invalid dataurl parameter").
Definition malformed_data : exn := Error (str "malformed data").

(** The exception of reading [length] of [undefined]. *)
Definition undefined_length : exn :=
  TypeError (str "Cannot read properties of undefined (reading 'length')").

(** The bytes [pct_encode] escapes. *)
Definition is_escaped_byte (b : byte) : bool :=
  negb (is_unreserved (Byte.to_N b)).

End Invariants.

Import Invariants.

(* ================================================================= *)
(** ** The matcher decides the language of a pattern *)

Section RegexFacts.

Lemma lang_cat_inv r1 r2 s :
  lang (Cat r1 r2) s ->
  exists s1 s2, s = s1 ++ s2 /\ lang r1 s1 /\ lang r2 s2.
Proof.
  intros H; inversion H; subst; eauto.
Qed.

Lemma lang_alt_inv r1 r2 s :
  lang (Alt r1 r2) s -> lang r1 s \/ lang r2 s.
Proof.
  intros H; inversion H; subst; auto.
Qed.

Lemma lang_class_inv p s :
  lang (Class p) s -> exists c, s = [c] /\ p c = true.
Proof.
  intros H; inversion H; subst; eauto.
Qed.

Lemma lang_eps_inv s : lang Eps s -> s = [].
Proof.
  intros H; inversion H; reflexivity.
Qed.

(** A non-empty word of [r*] starts with a non-empty word of [r]. *)
Lemma lang_star_cons_inv r c s :
  lang (Star r) (c :: s) ->
  exists s1 s2, s = s1 ++ s2 /\ lang r (c :: s1) /\ lang (Star r) s2.
Proof.
  intros H.
  remember (Star r) as r' eqn:Er.
  remember (c :: s) as w eqn:Ew.
  induction H as [ | | | | | | r0 s1 s2 H1 _ H2 IH2 ]; try discriminate.
  injection Er as ->.
  destruct s1 as [ | c1 s1 ].
  - simpl in Ew. apply IH2; auto.
  - simpl in Ew. injection Ew as -> <-.
    exists s1, s2. auto.
Qed.

Lemma nullable_lang r : nullable r = true <-> lang r [].
Proof.
  induction r as [ | | p | r1 IH1 r2 IH2 | r1 IH1 r2 IH2 | r IH ]; simpl.
  - split; [ discriminate | intros H; inversion H ].
  - split; [ constructor | reflexivity ].
  - split; [ discriminate | intros H; inversion H ].
  - rewrite andb_true_iff, IH1, IH2. split.
    + intros [H1 H2]. apply (LCat H1 H2).
    + intros H. apply lang_cat_inv in H as (s1 & s2 & E & H1 & H2).
      symmetry in E. apply app_eq_nil in E as [-> ->]. auto.
  - rewrite orb_true_iff, IH1, IH2. split.
    + intros [H | H]; [ apply LAltL | apply LAltR ]; assumption.
    + apply lang_alt_inv.
  - split; [ constructor | reflexivity ].
Qed.

Lemma deriv_lang c r : forall s, lang (deriv c r) s <-> lang r (c :: s).
Proof.
  induction r as [ | | p | r1 IH1 r2 IH2 | r1 IH1 r2 IH2 | r IH ];
    intros s; simpl.
  - split; intros H; inversion H.
  - split; intros H; inversion H.
  - destruct (p c) eqn:Ep; split; intros H.
    + apply lang_eps_inv in H as ->. constructor; assumption.
    + inversion H; subst. constructor.
    + inversion H.
    + inversion H; subst. congruence.
  - assert (Hcat : lang (Cat (deriv c r1) r2) s ->
                   lang (Cat r1 r2) (c :: s)).
    { intros H. apply lang_cat_inv in H as (s1 & s2 & -> & H1 & H2).
      apply IH1 in H1. apply (LCat H1 H2). }
    assert (Hinv : lang (Cat r1 r2) (c :: s) ->
                   lang (Cat (deriv c r1) r2) s
                   \/ (lang r1 [] /\ lang r2 (c :: s))).
    { intros H. apply lang_cat_inv in H as (s1 & s2 & E & H1 & H2).
      destruct s1 as [ | c1 s1 ]; simpl in E.
      - subst s2. right. auto.
      - injection E as <- ->. left. apply LCat; [ apply IH1 | ]; assumption. }
    destruct (nullable r1) eqn:En; split; intros H.
    + apply lang_alt_inv in H as [H | H]; [ auto | ].
      apply IH2 in H. apply nullable_lang in En.
      apply (LCat (s1 := []) En H).
    + apply Hinv in H as [H | [_ H]]; [ apply LAltL | apply LAltR ]; auto.
      apply IH2; assumption.
    + auto.
    + apply Hinv in H as [H | [H _]]; [ assumption | ].
      apply nullable_lang in H. congruence.
  - split; intros H.
    + apply lang_alt_inv in H as [H | H];
        [ apply LAltL, IH1 | apply LAltR, IH2 ]; assumption.
    + apply lang_alt_inv in H as [H | H];
        [ apply LAltL, IH1 | apply LAltR, IH2 ]; assumption.
  - split; intros H.
    + apply lang_cat_inv in H as (s1 & s2 & -> & H1 & H2).
      apply IH in H1. apply (LStarApp H1 H2).
    + apply lang_star_cons_inv in H as (s1 & s2 & -> & H1 & H2).
      apply LCat; [ apply IH | ]; assumption.
Qed.

Lemma full_match_lang s : forall r, full_match r s = true <-> lang r s.
Proof.
  induction s as [ | c s IH ]; intros r; simpl.
  - apply nullable_lang.
  - rewrite IH. apply deriv_lang.
Qed.

Lemma full_match_false r s : full_match r s = false <-> ~ lang r s.
Proof.
  rewrite <- full_match_lang. destruct (full_match r s); split; congruence.
Qed.

Lemma lang_star_any s : lang (Star any) s.
Proof.
  induction s as [ | c s IH ].
  - constructor.
  - apply (LStarApp (s1 := [c])); [ constructor; reflexivity | assumption ].
Qed.

(** [search] finds a match anywhere in the text. *)
Lemma search_spec r s :
  search r s = true <-> exists a m b, s = a ++ m ++ b /\ lang r m.
Proof.
  unfold search. rewrite full_match_lang. split.
  - intros H. apply lang_cat_inv in H as (a & t & -> & _ & H).
    apply lang_cat_inv in H as (m & b & -> & H & _). eauto.
  - intros (a & m & b & -> & H).
    apply LCat; [ apply lang_star_any | ].
    apply LCat; [ assumption | apply lang_star_any ].
Qed.

Lemma lang_star_class p s :
  lang (Star (Class p)) s <-> Forall (fun c => p c = true) s.
Proof.
  split.
  - induction s as [ | c s IH ]; intros H; [ constructor | ].
    apply lang_star_cons_inv in H as (s1 & s2 & -> & H1 & H2).
    apply lang_class_inv in H1 as (c' & E & Hp).
    injection E as <- ->. constructor; [ assumption | apply IH, H2 ].
  - induction 1 as [ | c s Hp _ IH ]; [ constructor | ].
    apply (LStarApp (s1 := [c])); [ constructor | ]; assumption.
Qed.

(** A star is a concatenation of words of its body. *)
Lemma lang_star_concat r s :
  lang (Star r) s <-> exists ws, Forall (lang r) ws /\ s = concat ws.
Proof.
  split.
  - intros H. remember (Star r) as r' eqn:Er.
    induction H as [ | | | | | | r0 s1 s2 H1 _ H2 IH2 ]; try discriminate.
    + exists []. split; [ constructor | reflexivity ].
    + injection Er as ->. destruct (IH2 eq_refl) as (ws & Hws & ->).
      exists (s1 :: ws). split; [ constructor; assumption | reflexivity ].
  - intros (ws & Hws & ->).
    induction Hws as [ | w ws Hw _ IH ]; simpl; [ constructor | ].
    apply LStarApp; assumption.
Qed.

End RegexFacts.

(* ================================================================= *)
(** ** Character classes *)

(** Replace the code units of ASCII characters by their numbers. *)
Ltac ch_values :=
  repeat match goal with
    | |- context [ch ?a] =>
        let v := eval vm_compute in (ch a) in change (ch a) with v
    | H : context [ch ?a] |- _ =>
        let v := eval vm_compute in (ch a) in change (ch a) with v in H
    end.

(** Split on every comparison in sight, dropping impossible cases. *)
Ltac cmp_cases :=
  repeat match goal with
    | |- context [?a <=? ?b] => destruct (N.leb_spec a b); try lia
    | |- context [?a <? ?b] => destruct (N.ltb_spec a b); try lia
    | |- context [?a =? ?b] => destruct (N.eqb_spec a b); try lia
    | H : context [?a <=? ?b] |- _ => destruct (N.leb_spec a b); try lia
    | H : context [?a <? ?b] |- _ => destruct (N.ltb_spec a b); try lia
    | H : context [?a =? ?b] |- _ => destruct (N.eqb_spec a b); try lia
    end.

Ltac class_cases :=
  unfold is_unreserved, is_hexdig, is_base64_digit, is_line_terminator,
    in_range, is_char in *;
  ch_values; cmp_cases; cbn [andb orb negb] in *;
  try discriminate; try lia.

Section Classes.

Lemma is_char_eq a c : is_char a c = true <-> c = ch a.
Proof.
  unfold is_char. apply N.eqb_eq.
Qed.

Lemma string_eqb_eq a : forall b, string_eqb a b = true <-> a = b.
Proof.
  induction a as [ | x a IH ]; intros [ | y b ]; simpl;
    try (split; [ discriminate | congruence ]); [ tauto | ].
  rewrite andb_true_iff, N.eqb_eq, IH. split.
  - intros [-> ->]. reflexivity.
  - intros E. injection E as -> ->. auto.
Qed.

Lemma string_eqb_neq a b : string_eqb a b = false <-> a <> b.
Proof.
  rewrite <- string_eqb_eq. destruct (string_eqb a b); split; congruence.
Qed.

Lemma hex_value_digit h :
  is_hexdig h = true -> hex_value h = Some (digit_value h).
Proof.
  intros H. unfold hex_value, digit_value.
  class_cases; f_equal; lia.
Qed.

Lemma lang_unreserved s :
  lang unreserved s <-> exists c, s = [c] /\ is_unreserved c = true.
Proof.
  split.
  - apply lang_class_inv.
  - intros (c & -> & H). constructor; assumption.
Qed.

Lemma lang_escaped s :
  lang escaped s <->
  exists h1 h2,
    s = [ch "%"; h1; h2] /\ is_hexdig h1 = true /\ is_hexdig h2 = true.
Proof.
  unfold escaped. split.
  - intros H. apply lang_cat_inv in H as (s1 & s2 & -> & H1 & H).
    apply lang_cat_inv in H as (s2' & s3 & -> & H2 & H3).
    apply lang_class_inv in H1 as (c1 & -> & E1).
    apply lang_class_inv in H2 as (c2 & -> & E2).
    apply lang_class_inv in H3 as (c3 & -> & E3).
    apply is_char_eq in E1 as ->. simpl. eauto.
  - intros (h1 & h2 & -> & H1 & H2).
    apply (LCat (s1 := [ch "%"]) (s2 := [h1; h2]));
      [ constructor; reflexivity | ].
    apply (LCat (s1 := [h1]) (s2 := [h2])); constructor; assumption.
Qed.

Lemma pct_token_lang t : pct_token t <-> lang (Alt unreserved escaped) t.
Proof.
  split.
  - intros [c Hc | h1 h2 H1 H2].
    + apply LAltL, lang_unreserved. eauto.
    + apply LAltR, lang_escaped. eauto.
  - intros H. apply lang_alt_inv in H as [H | H].
    + apply lang_unreserved in H as (c & -> & Hc). constructor; assumption.
    + apply lang_escaped in H as (h1 & h2 & -> & H1 & H2).
      constructor; assumption.
Qed.

Lemma pct_wellformed_lang s :
  pct_wellformed s <-> lang pct_correctly_encoded s.
Proof.
  unfold pct_wellformed, pct_correctly_encoded.
  rewrite lang_star_concat.
  split; intros (toks & H & ->); exists toks; split; try reflexivity;
    (eapply Forall_impl; [ | exact H ]); intros t; apply pct_token_lang.
Qed.

End Classes.

(* ================================================================= *)
(** ** Percent-decoding *)

Section PctDecode.

Lemma search_single p c : search (Class p) [c] = p c.
Proof.
  destruct (p c) eqn:E.
  - apply search_spec. exists [], [c], []. split; [ reflexivity | ].
    constructor; assumption.
  - apply not_true_iff_false. intros H.
    apply search_spec in H as (a & m & b & Es & H).
    apply lang_class_inv in H as (c' & -> & Hc).
    destruct a as [ | x a ]; simpl in Es.
    + injection Es as <- _. congruence.
    + injection Es as _ Es. destruct a; discriminate Es.
Qed.

(** A run of unreserved characters holds no escape. *)
Lemma search_escaped_unreserved piece :
  Forall (fun c => is_unreserved c = true) piece ->
  search escaped piece = false.
Proof.
  intros Hp. apply not_true_iff_false. intros H.
  apply search_spec in H as (a & m & b & -> & H).
  apply lang_escaped in H as (h1 & h2 & -> & _).
  apply Forall_app in Hp as [_ Hp]. simpl in Hp.
  apply Forall_inv in Hp. discriminate Hp.
Qed.

Lemma pct_decode_part_unreserved piece :
  Forall (fun c => is_unreserved c = true) piece ->
  pct_decode_part piece = Buffer_from_ascii piece.
Proof.
  intros Hp. unfold pct_decode_part.
  rewrite search_escaped_unreserved by assumption. reflexivity.
Qed.

Lemma pct_decode_part_escaped h1 h2 :
  is_hexdig h1 = true -> is_hexdig h2 = true ->
  pct_decode_part [ch "%"; h1; h2] = token_byte [ch "%"; h1; h2].
Proof.
  intros H1 H2. unfold pct_decode_part.
  replace (search escaped [ch "%"; h1; h2]) with true.
  - simpl. rewrite (hex_value_digit h1), (hex_value_digit h2) by assumption.
    reflexivity.
  - symmetry. apply search_spec. exists [], [ch "%"; h1; h2], [].
    split; [ reflexivity | ]. apply lang_escaped. eauto.
Qed.

Lemma split_escaped_unreserved piece c rest :
  is_unreserved c = true ->
  split_escaped piece (c :: rest) = split_escaped (piece ++ [c]) rest.
Proof.
  intros Hc. cbn [split_escaped].
  destruct rest as [ | h1 [ | h2 rest' ] ]; try reflexivity.
  replace (full_match splitter [c; h1; h2]) with false; [ reflexivity | ].
  symmetry. apply full_match_false. intros H.
  apply lang_escaped in H as (x1 & x2 & E & _).
  injection E as -> _ _. discriminate Hc.
Qed.

Lemma split_escaped_escaped piece h1 h2 rest :
  is_hexdig h1 = true -> is_hexdig h2 = true ->
  split_escaped piece (ch "%" :: h1 :: h2 :: rest)
  = piece :: [ch "%"; h1; h2] :: split_escaped [] rest.
Proof.
  intros H1 H2. cbn [split_escaped].
  replace (full_match splitter [ch "%"; h1; h2]) with true;
    [ reflexivity | ].
  symmetry. apply full_match_lang, lang_escaped. eauto.
Qed.

(** Decoding the parts of the split text decodes token after token. *)
Lemma split_escaped_decode toks :
  Forall pct_token toks ->
  forall piece,
    Forall (fun c => is_unreserved c = true) piece ->
    concat (List.map pct_decode_part (split_escaped piece (concat toks)))
    = Buffer_from_ascii piece ++ concat (List.map token_byte toks).
Proof.
  induction 1 as [ | t toks Ht _ IH ]; intros piece Hp.
  - simpl. rewrite pct_decode_part_unreserved by assumption.
    reflexivity.
  - destruct Ht as [ c Hc | h1 h2 H1 H2 ].
    + change (concat ([c] :: toks)) with (c :: concat toks).
      rewrite split_escaped_unreserved by assumption.
      rewrite IH by (apply Forall_app; auto).
      unfold Buffer_from_ascii. rewrite map_app, <- app_assoc. reflexivity.
    + change (concat ([ch "%"; h1; h2] :: toks))
        with (ch "%" :: h1 :: h2 :: concat toks).
      rewrite split_escaped_escaped by assumption.
      cbn [List.map concat].
      rewrite pct_decode_part_unreserved by assumption.
      rewrite pct_decode_part_escaped by assumption.
      rewrite IH by constructor.
      reflexivity.
Qed.

Lemma pct_decode_tokens toks :
  Forall pct_token toks ->
  pct_decode (concat toks) = Ok (concat (List.map token_byte toks)).
Proof.
  intros H. unfold pct_decode.
  replace (full_match pct_correctly_encoded (concat toks)) with true.
  - simpl. rewrite split_escaped_decode by (assumption || constructor).
    reflexivity.
  - symmetry. apply full_match_lang, pct_wellformed_lang. exists toks. auto.
Qed.

Lemma pct_decode_throws s e :
  pct_decode s = Throw e ->
  e = Error (str "malformed data") /\ ~ pct_wellformed s.
Proof.
  unfold pct_decode.
  destruct (full_match pct_correctly_encoded s) eqn:E; simpl;
    intros H; [ discriminate | ].
  injection H as <-. split; [ reflexivity | ].
  rewrite pct_wellformed_lang. apply full_match_false. assumption.
Qed.

End PctDecode.

(** C6: [pct_decode] throws [Error("malformed data")] exactly on the
    texts that are not a sequence of unreserved characters and [%XX]
    triplets, and nothing is decoded then; on a sequence of such tokens
    it returns the bytes of the tokens, one byte a token, in order. *)
Theorem pct_decode_validates (s : jsstring) :
  (pct_decode s = Throw (Error (str "malformed data"))
   <-> ~ pct_wellformed s)
  /\ (pct_wellformed s \/ pct_decode s = Throw (Error (str "malformed data")))
  /\ (forall toks,
        Forall pct_token toks -> s = concat toks ->
        pct_decode s = Ok (concat (List.map token_byte toks))).
Proof.
  split; [ | split ].
  - split.
    + intros H. apply pct_decode_throws in H. tauto.
    + intros H. unfold pct_decode.
      replace (full_match pct_correctly_encoded s) with false;
        [ reflexivity | ].
      symmetry. apply full_match_false. rewrite <- pct_wellformed_lang.
      assumption.
  - unfold pct_decode.
    destruct (full_match pct_correctly_encoded s) eqn:E; simpl.
    + left. apply pct_wellformed_lang, full_match_lang. assumption.
    + right. reflexivity.
  - intros toks H ->. apply pct_decode_tokens. assumption.
Qed.

Lemma pct_decode_validates_witness :
  Forall pct_token [[ch "a"]; [ch "%"; ch "2"; ch "0"]]
  /\ str "a%20" = concat [[ch "a"]; [ch "%"; ch "2"; ch "0"]]
  /\ pct_decode (str "a%20") = Ok [x61; x20].
Proof.
  assert (H : Forall pct_token [[ch "a"]; [ch "%"; ch "2"; ch "0"]]).
  { repeat constructor. }
  split; [ exact H | split; [ reflexivity | ] ].
  exact (proj2 (proj2 (pct_decode_validates (str "a%20"))) _ H eq_refl).
Defined.

(* ================================================================= *)
(** ** Percent-encoding *)

Section PctEncode.

Lemma byte_of_N_to_N b : byte_of_N (Byte.to_N b) = b.
Proof.
  unfold byte_of_N. pose proof (Byte.to_N_bounded b) as Hb.
  rewrite N.mod_small by lia. rewrite Byte.of_to_N. reflexivity.
Qed.

Lemma pct_encode_byte_app s b :
  pct_encode_byte s b = s ++ pct_encode_byte [] b.
Proof.
  unfold pct_encode_byte.
  destruct (search unreserved [Byte.to_N b]); reflexivity.
Qed.

Lemma pct_encode_fold bs :
  forall acc,
    fold_left pct_encode_byte bs acc
    = acc ++ concat (List.map (pct_encode_byte []) bs).
Proof.
  induction bs as [ | b bs IH ]; intros acc; simpl.
  - rewrite app_nil_r. reflexivity.
  - rewrite IH, pct_encode_byte_app, <- app_assoc. reflexivity.
Qed.

(** The percent-encoded text of a buffer, byte by byte. *)
Lemma pct_encode_concat bs :
  pct_encode (ArgBuffer bs) = concat (List.map (pct_encode_byte []) bs).
Proof.
  unfold pct_encode. simpl Buffer_from. apply pct_encode_fold.
Qed.

Lemma pct_encode_byte_token b : pct_token (pct_encode_byte [] b).
Proof.
  destruct b; vm_compute;
    first [ apply TokUnreserved; reflexivity
          | apply TokEscaped; reflexivity ].
Qed.

Lemma pct_encode_byte_decodes b : token_byte (pct_encode_byte [] b) = [b].
Proof.
  destruct b; reflexivity.
Qed.

Lemma pct_encode_tokens bs :
  Forall pct_token (List.map (pct_encode_byte []) bs).
Proof.
  apply Forall_forall. intros t Ht.
  apply in_map_iff in Ht as (b & <- & _). apply pct_encode_byte_token.
Qed.

Lemma pct_encode_wellformed bs : pct_wellformed (pct_encode (ArgBuffer bs)).
Proof.
  exists (List.map (pct_encode_byte []) bs).
  split; [ apply pct_encode_tokens | apply pct_encode_concat ].
Qed.

End PctEncode.

Lemma pct_decode_encode_buffer (b : bytes) :
  pct_decode (pct_encode (ArgBuffer b)) = Ok b.
Proof.
  rewrite pct_encode_concat.
  rewrite pct_decode_tokens by apply pct_encode_tokens.
  f_equal. induction b as [ | x b IH ]; simpl; [ reflexivity | ].
  rewrite pct_encode_byte_decodes, IH. reflexivity.
Qed.

(** C4: percent-decoding the percent-encoding of a buffer succeeds and
    gives the buffer back. *)
Theorem pct_roundtrip (b : bytes) :
  pct_decode (pct_encode (ArgBuffer b)) = Ok b.
Proof.
  apply pct_decode_encode_buffer.
Qed.

(* ================================================================= *)
(** ** Base64 *)

(** [lia] with division and remainder by constants. *)
Ltac div_lia := zify; Z.to_euclidean_division_equations; lia.

Section Base64.

Lemma list_ind3 (A : Type) (P : list A -> Prop) :
  P [] -> (forall x, P [x]) -> (forall x y, P [x; y]) ->
  (forall x y z l, P l -> P (x :: y :: z :: l)) ->
  forall l, P l.
Proof.
  intros H0 H1 H2 H3 l.
  assert (H : P l /\ (forall x, P (x :: l)) /\ (forall x y, P (x :: y :: l))).
  { induction l as [ | a l (IH0 & IH1 & IH2) ]; auto. }
  apply H.
Qed.

Lemma lang_opt_pad s :
  lang (Opt (Class (is_char "="))) s <-> s = [] \/ s = [ch "="].
Proof.
  unfold Opt. split.
  - intros H. apply lang_alt_inv in H as [H | H].
    + apply lang_class_inv in H as (c & -> & Hc).
      apply is_char_eq in Hc as ->. auto.
    + apply lang_eps_inv in H. auto.
  - intros [-> | ->]; [ apply LAltR | apply LAltL ]; constructor; reflexivity.
Qed.

Lemma base64_wellformed_lang s :
  base64_wellformed s <-> lang base64_correctly_encoded s.
Proof.
  unfold base64_wellformed, base64_correctly_encoded. split.
  - intros (body & pad & -> & Hb & Hp).
    apply LCat; [ apply lang_star_class; assumption | ].
    destruct Hp as [-> | [-> | ->]].
    + apply (LCat (s1 := []) (s2 := [])); apply lang_opt_pad; auto.
    + apply (LCat (s1 := [ch "="]) (s2 := [])); apply lang_opt_pad; auto.
    + apply (LCat (s1 := [ch "="]) (s2 := [ch "="])); apply lang_opt_pad; auto.
  - intros H. apply lang_cat_inv in H as (body & pad & -> & Hb & H).
    apply lang_cat_inv in H as (p1 & p2 & -> & H1 & H2).
    apply lang_star_class in Hb.
    apply lang_opt_pad in H1, H2.
    exists body, (p1 ++ p2). split; [ reflexivity | ]. split; [ assumption | ].
    destruct H1 as [-> | ->], H2 as [-> | ->]; simpl; auto.
Qed.

Lemma base64_value_digit n :
  n < 64 -> base64_value (base64_digit n) = Some n.
Proof.
  intros H. unfold base64_value, base64_digit, in_range, is_char.
  ch_values. cmp_cases; cbn [andb orb]; f_equal; lia.
Qed.

Lemma base64_digit_not_pad n : is_char "=" (base64_digit n) = false.
Proof.
  unfold base64_digit, is_char. ch_values. cmp_cases; reflexivity.
Qed.

Lemma base64_digit_class n : is_base64_digit (base64_digit n) = true.
Proof.
  unfold base64_digit. class_cases; reflexivity.
Qed.

Lemma base64_sextets_digit n rest :
  n < 64 ->
  base64_sextets (base64_digit n :: rest) = n :: base64_sextets rest.
Proof.
  intros H. cbn [base64_sextets].
  rewrite base64_digit_not_pad, base64_value_digit by assumption.
  reflexivity.
Qed.

Lemma base64_sextets_pad rest : base64_sextets (ch "=" :: rest) = [].
Proof. reflexivity. Qed.

(** The three bytes of a group come back from its four digits. *)
Lemma base64_group x y z :
  x < 256 -> y < 256 -> z < 256 ->
  x / 4 < 64 /\ x mod 4 * 16 + y / 16 < 64
  /\ y mod 16 * 4 + z / 64 < 64 /\ z mod 64 < 64
  /\ x / 4 * 4 + (x mod 4 * 16 + y / 16) / 16 = x
  /\ (x mod 4 * 16 + y / 16) mod 16 * 16 + (y mod 16 * 4 + z / 64) / 4 = y
  /\ (y mod 16 * 4 + z / 64) mod 4 * 64 + z mod 64 = z.
Proof.
  intros Hx Hy Hz. repeat split; div_lia.
Qed.

Lemma to_N_lt b : Byte.to_N b < 256.
Proof.
  pose proof (Byte.to_N_bounded b). lia.
Qed.

Lemma Buffer_base64_roundtrip b :
  Buffer_from_base64 (Buffer_toString_base64 b) = b.
Proof.
  unfold Buffer_from_base64.
  induction b as [ | x | x y | x y z b IH ] using list_ind3.
  - reflexivity.
  - cbn [Buffer_toString_base64].
    destruct (base64_group (to_N_lt x) (to_N_lt x00) (to_N_lt x00))
      as (H1 & H2 & _ & _ & E1 & _).
    change (Byte.to_N x00) with 0 in *.
    replace (Byte.to_N x mod 4 * 16)
      with (Byte.to_N x mod 4 * 16 + 0 / 16) by (change (0 / 16) with 0; lia).
    rewrite !base64_sextets_digit, base64_sextets_pad by assumption.
    cbn [base64_bytes]. rewrite E1, byte_of_N_to_N. reflexivity.
  - cbn [Buffer_toString_base64].
    destruct (base64_group (to_N_lt x) (to_N_lt y) (to_N_lt x00))
      as (H1 & H2 & H3 & _ & E1 & E2 & _).
    change (Byte.to_N x00) with 0 in *.
    replace (Byte.to_N y mod 16 * 4)
      with (Byte.to_N y mod 16 * 4 + 0 / 64) by (change (0 / 64) with 0; lia).
    rewrite !base64_sextets_digit, base64_sextets_pad by assumption.
    cbn [base64_bytes]. rewrite E1, E2, !byte_of_N_to_N. reflexivity.
  - cbn [Buffer_toString_base64].
    destruct (base64_group (to_N_lt x) (to_N_lt y) (to_N_lt z))
      as (H1 & H2 & H3 & H4 & E1 & E2 & E3).
    rewrite !base64_sextets_digit by assumption.
    cbn [base64_bytes]. rewrite E1, E2, E3, !byte_of_N_to_N, IH.
    reflexivity.
Qed.

Lemma Buffer_toString_base64_length b :
  N.of_nat (length (Buffer_toString_base64 b)) mod 4 = 0.
Proof.
  induction b as [ | x | x y | x y z b IH ] using list_ind3;
    try reflexivity.
  cbn [Buffer_toString_base64 length].
  rewrite !Nat2N.inj_succ. revert IH.
  generalize (N.of_nat (length (Buffer_toString_base64 b))).
  intros n Hn. div_lia.
Qed.

Lemma Buffer_toString_base64_wellformed b :
  base64_wellformed (Buffer_toString_base64 b).
Proof.
  induction b as [ | x | x y | x y z b IH ] using list_ind3.
  - exists [], []. repeat split; auto.
  - cbn [Buffer_toString_base64].
    eexists [_; _], [ch "="; ch "="]. split; [ reflexivity | ].
    split; [ | auto ]. repeat constructor; apply base64_digit_class.
  - cbn [Buffer_toString_base64].
    eexists [_; _; _], [ch "="]. split; [ reflexivity | ].
    split; [ | auto ]. repeat constructor; apply base64_digit_class.
  - destruct IH as (body & pad & E & Hb & Hp).
    cbn [Buffer_toString_base64]. rewrite E.
    eexists (_ :: _ :: _ :: _ :: body), pad. split; [ reflexivity | ].
    split; [ | assumption ]. repeat constructor;
      try apply base64_digit_class. assumption.
Qed.

Lemma base64_decode_throws s e :
  base64_decode s = Throw e ->
  e = Error (str "malformed data")
  /\ (N.of_nat (length s) mod 4 <> 0 \/ ~ base64_wellformed s).
Proof.
  unfold base64_decode.
  destruct (N.eqb_spec (N.of_nat (length s) mod 4) 0) as [E | E]; simpl.
  - destruct (full_match base64_correctly_encoded s) eqn:Em; simpl;
      intros H; [ discriminate | ].
    injection H as <-. split; [ reflexivity | ]. right.
    rewrite base64_wellformed_lang. apply full_match_false. assumption.
  - intros H. injection H as <-. auto.
Qed.

Lemma base64_decode_accepts s :
  N.of_nat (length s) mod 4 = 0 -> base64_wellformed s ->
  base64_decode s = Ok (Buffer_from_base64 s).
Proof.
  intros E H. unfold base64_decode.
  apply base64_wellformed_lang, full_match_lang in H.
  rewrite H, E. reflexivity.
Qed.

End Base64.

Lemma base64_decode_encode_buffer (b : bytes) :
  base64_decode (base64_encode (ArgBuffer b)) = Ok b.
Proof.
  unfold base64_encode. simpl Buffer_from.
  rewrite base64_decode_accepts.
  - rewrite Buffer_base64_roundtrip. reflexivity.
  - apply Buffer_toString_base64_length.
  - apply Buffer_toString_base64_wellformed.
Qed.

(** C5: base64-decoding the base64-encoding of a buffer succeeds and
    gives the buffer back. *)
Theorem base64_roundtrip (b : bytes) :
  base64_decode (base64_encode (ArgBuffer b)) = Ok b.
Proof.
  apply base64_decode_encode_buffer.
Qed.

(** C7: [base64_decode] throws [Error("malformed data")] exactly when
    the length of the text is no multiple of four or the text is not a
    run of digits of the standard alphabet followed by at most two [=];
    otherwise it returns a buffer.  It throws on ["abc"]. *)
Theorem base64_decode_validates (s : jsstring) :
  (base64_decode s = Throw (Error (str "malformed data"))
   <-> (N.of_nat (length s) mod 4 <> 0 \/ ~ base64_wellformed s))
  /\ ((exists b, base64_decode s = Ok b)
      <-> (N.of_nat (length s) mod 4 = 0 /\ base64_wellformed s))
  /\ base64_decode (str "abc") = Throw (Error (str "malformed data")).
Proof.
  assert (Hok : N.of_nat (length s) mod 4 = 0 /\ base64_wellformed s ->
                exists b, base64_decode s = Ok b).
  { intros [E H]. rewrite base64_decode_accepts by assumption. eauto. }
  split; [ | split ].
  - split.
    + intros H. apply base64_decode_throws in H. tauto.
    + intros H. destruct (base64_decode s) as [ b | e ] eqn:Ed.
      * exfalso.
        unfold base64_decode in Ed.
        destruct (N.eqb_spec (N.of_nat (length s) mod 4) 0) as [E | E];
          simpl in Ed; [ | discriminate ].
        destruct (full_match base64_correctly_encoded s) eqn:Em;
          simpl in Ed; [ | discriminate ].
        apply full_match_lang, base64_wellformed_lang in Em. tauto.
      * apply base64_decode_throws in Ed as [-> _]. reflexivity.
  - split; [ | exact Hok ].
    intros [b Hb]. unfold base64_decode in Hb.
    destruct (N.eqb_spec (N.of_nat (length s) mod 4) 0) as [E | E];
      simpl in Hb; [ | discriminate ].
    destruct (full_match base64_correctly_encoded s) eqn:Em;
      simpl in Hb; [ | discriminate ].
    apply full_match_lang, base64_wellformed_lang in Em. auto.
  - reflexivity.
Qed.

(* ================================================================= *)
(** ** composeSync *)

(** C10: [composeSync] throws a [TypeError] exactly when [info.data] is
    no [Buffer] and returns a string otherwise, whatever the other
    fields hold; the text composed for the media type [image/png]
    without parameters and with the base64 flag starts with
    [data:image/png;base64,]. *)
Theorem composeSync_total (info : Info) :
  ((exists msg, composeSync info = Throw (TypeError msg))
   <-> Buffer_isBuffer (data info) = false)
  /\ ((exists e, composeSync info = Throw e)
      <-> Buffer_isBuffer (data info) = false)
  /\ ((exists s, composeSync info = Ok s)
      <-> Buffer_isBuffer (data info) = true)
  /\ (forall b,
        exists rest,
          composeSync {| base64 := Some true;
                         mime := Some (str "image/png");
                         parameters := [];
                         data := VBuffer b |}
          = Ok (str "data:image/png;base64," ++ rest)).
Proof.
  unfold composeSync.
  repeat split.
  - intros [msg H]. destruct (data info); try reflexivity.
    destruct (truthy (base64 info)); discriminate H.
  - intros H. destruct (data info); try discriminate H; eauto.
  - intros [e H]. destruct (data info); try reflexivity.
    destruct (truthy (base64 info)); discriminate H.
  - intros H. destruct (data info); try discriminate H; eauto.
  - intros [s H]. destruct (data info); try discriminate H. reflexivity.
  - intros H. destruct (data info); try discriminate H.
    destruct (truthy (base64 info)); eauto.
  - intros b. exists (base64_encode (ArgBuffer b)). reflexivity.
Qed.

(* ================================================================= *)
(** ** Splitting and joining *)

Section Split.

Lemma split_on_nonempty sep s : forall piece, split_on sep piece s <> [].
Proof.
  induction s as [ | c s IH ]; intros piece; simpl.
  - discriminate.
  - destruct (c =? sep); [ discriminate | apply IH ].
Qed.

Lemma join_cons sep x l :
  l <> [] -> join sep (x :: l) = x ++ sep ++ join sep l.
Proof.
  destruct l; [ congruence | reflexivity ].
Qed.

(** Joining the pieces with the separator gives the text back. *)
Lemma split_on_join sep s :
  forall piece, join [sep] (split_on sep piece s) = piece ++ s.
Proof.
  induction s as [ | c s IH ]; intros piece; simpl split_on.
  - simpl. rewrite app_nil_r. reflexivity.
  - destruct (N.eqb_spec c sep) as [-> | Hc].
    + rewrite join_cons by apply split_on_nonempty.
      rewrite IH. reflexivity.
    + rewrite IH, <- app_assoc. reflexivity.
Qed.

(** There is one piece more than there are separators. *)
Lemma split_on_length sep s :
  forall piece, length (split_on sep piece s) = S (count_char sep s).
Proof.
  unfold count_char.
  induction s as [ | c s IH ]; intros piece; simpl; [ reflexivity | ].
  rewrite (N.eqb_sym sep c).
  destruct (c =? sep); simpl; rewrite IH; reflexivity.
Qed.

(** Text without the separator is one piece. *)
Lemma split_on_plain sep s :
  count_char sep s = 0%nat ->
  forall piece, split_on sep piece s = [piece ++ s].
Proof.
  unfold count_char.
  induction s as [ | c s IH ]; intros H piece; simpl.
  - rewrite app_nil_r. reflexivity.
  - simpl in H. rewrite (N.eqb_sym sep c) in H.
    destruct (c =? sep); [ discriminate H | ].
    rewrite IH by assumption. rewrite <- app_assoc. reflexivity.
Qed.

(** The first piece ends at the first separator. *)
Lemma split_on_app sep a rest :
  count_char sep a = 0%nat ->
  forall piece,
    split_on sep piece (a ++ sep :: rest)
    = (piece ++ a) :: split_on sep [] rest.
Proof.
  unfold count_char.
  induction a as [ | c a IH ]; intros H piece; simpl.
  - rewrite N.eqb_refl, app_nil_r. reflexivity.
  - simpl in H. rewrite (N.eqb_sym sep c) in H.
    destruct (c =? sep); [ discriminate H | ].
    rewrite IH by assumption. rewrite <- app_assoc. reflexivity.
Qed.

Lemma count_char_app c a b :
  count_char c (a ++ b) = (count_char c a + count_char c b)%nat.
Proof.
  unfold count_char. rewrite filter_app, length_app. reflexivity.
Qed.

(** Splitting joined pieces that hold no separator gives the pieces. *)
Lemma split_on_joined sep l :
  l <> [] ->
  Forall (fun t => count_char sep t = 0%nat) l ->
  split_on sep [] (join [sep] l) = l.
Proof.
  induction l as [ | x l IH ]; intros Hne Hl; [ congruence | ].
  apply Forall_cons_iff in Hl as [Hx Hl].
  destruct l as [ | y l ].
  - simpl. apply split_on_plain. assumption.
  - rewrite join_cons by discriminate.
    change ([sep] ++ join [sep] (y :: l)) with (sep :: join [sep] (y :: l)).
    rewrite split_on_app by assumption.
    rewrite IH by (assumption || discriminate). reflexivity.
Qed.

End Split.

(* ================================================================= *)
(** ** parseSync: parameters *)

Section Parameters.

(** The message of the error tells which check failed. *)
Lemma parse_parameter_invalid (parameters : jsobject) (token : jsstring) :
  parse_parameter parameters token
  = Throw (Error (str "invalid dataurl parameter"))
  <-> count_char (ch "=") token <> 1%nat.
Proof.
  unfold parse_parameter, split.
  pose proof (split_on_length (ch "=") token []) as Hlen.
  destruct (split_on (ch "=") [] token) as [ | s0 [ | s1 [ | s2 l ] ] ];
    cbn [length] in Hlen.
  - discriminate Hlen.
  - split; [ lia | reflexivity ].
  - split; [ | lia ].
    destruct (pct_decode s0) as [ ab | e0 ] eqn:E0; simpl.
    + destruct (pct_decode s1) as [ vb | e1 ] eqn:E1; simpl.
      * destruct (has_property parameters (Buffer_toString ab));
          discriminate.
      * apply pct_decode_throws in E1 as [-> _]. discriminate.
    + apply pct_decode_throws in E0 as [-> _]. discriminate.
  - split; [ lia | reflexivity ].
Qed.

Lemma parse_parameter_ok (parameters parameters' : jsobject) token :
  parse_parameter parameters token = Ok parameters' ->
  exists a v ab vb,
    token = a ++ [ch "="] ++ v
    /\ count_char (ch "=") token = 1%nat
    /\ pct_decode a = Ok ab /\ pct_decode v = Ok vb
    /\ parameters'
       = if has_property parameters (Buffer_toString ab)
         then parameters
         else set_own parameters (Buffer_toString ab) (Buffer_toString vb).
Proof.
  unfold parse_parameter, split.
  pose proof (split_on_length (ch "=") token []) as Hlen.
  pose proof (split_on_join (ch "=") token []) as Hjoin.
  destruct (split_on (ch "=") [] token) as [ | s0 [ | s1 [ | s2 l ] ] ];
    cbn [length] in Hlen; try discriminate.
  simpl in Hjoin. intros H.
  destruct (pct_decode s0) as [ ab | e0 ] eqn:E0; simpl in H;
    [ | discriminate H ].
  destruct (pct_decode s1) as [ vb | e1 ] eqn:E1; simpl in H;
    [ | discriminate H ].
  exists s0, s1, ab, vb.
  split; [ auto | ]. split; [ lia | ].
  split; [ exact E0 | ]. split; [ exact E1 | ].
  destruct (has_property parameters (Buffer_toString ab));
    simpl in H; congruence.
Qed.

(** Over all the parameter tokens: the loop throws this error exactly
    when the first token it cannot process is one without exactly one
    [=]. *)
Lemma reduce_parse_parameter_invalid tokens :
  forall acc,
    reduce parse_parameter tokens acc
    = Throw (Error (str "invalid dataurl parameter"))
    <-> exists before token after acc',
          tokens = before ++ token :: after
          /\ reduce parse_parameter before acc = Ok acc'
          /\ count_char (ch "=") token <> 1%nat.
Proof.
  induction tokens as [ | t tokens IH ]; intros acc.
  - split; [ discriminate | ].
    intros (before & token & after & _ & E & _). destruct before; discriminate.
  - simpl. split.
    + destruct (parse_parameter acc t) as [ acc1 | e ] eqn:Et; simpl.
      * intros H. apply IH in H as (before & token & after & acc' & -> & E & Hc).
        exists (t :: before), token, after, acc'.
        split; [ reflexivity | ]. split; [ | exact Hc ].
        simpl. rewrite Et. exact E.
      * intros H. injection H as ->.
        exists [], t, tokens, acc.
        split; [ reflexivity | ]. split; [ reflexivity | ].
        apply (parse_parameter_invalid acc). exact Et.
    + intros (before & token & after & acc' & E & Hr & Hc).
      destruct before as [ | t' before ]; simpl in E; injection E as -> ->.
      * simpl in Hr. injection Hr as ->.
        apply (parse_parameter_invalid acc') in Hc. rewrite Hc. reflexivity.
      * simpl in Hr.
        destruct (parse_parameter acc t') as [ acc1 | e ]; simpl in Hr |- *;
          [ | discriminate Hr ].
        apply IH. exists before, token, after, acc'. auto.
Qed.

(** [parseSync] throws this error exactly when the loop over the
    parameter tokens does. *)
Lemma parseSync_invalid_parameter s g1 g2 b64 mi tokens :
  match_dataurl s = Some (g1, g2) ->
  mediatype_tokens g1 = (b64, mi, tokens) ->
  parseSync s = Throw (Error (str "invalid dataurl parameter"))
  <-> reduce parse_parameter tokens []
      = Throw (Error (str "invalid dataurl parameter")).
Proof.
  intros Hm Ht. unfold parseSync, parse_header. rewrite Hm, Ht.
  destruct (reduce parse_parameter tokens []) as [ ps | e ]; simpl.
  - split; [ | discriminate ].
    destruct mi as [ m | ]; [ | discriminate ].
    destruct (apply_defaults m ps) as [m' ps'].
    destruct (truthy b64).
    + destruct (base64_decode g2) as [ d | e ] eqn:Ed; simpl;
        [ discriminate | ].
      apply base64_decode_throws in Ed as [-> _]. discriminate.
    + destruct (pct_decode g2) as [ d | e ] eqn:Ed; simpl;
        [ discriminate | ].
      apply pct_decode_throws in Ed as [-> _]. discriminate.
  - split; intros H; injection H as ->; reflexivity.
Qed.

End Parameters.

(** C9: processing one parameter token throws
    [Error("invalid dataurl parameter")] exactly when the token does not
    hold one [=] and no more; when the token is processed without an
    error, it is [a=v], and the attribute and the value are the texts of
    the percent-decoded [a] and [v], stored unless the attribute is
    already there.  The tokens are processed in order, so [parseSync]
    throws this error exactly when the first parameter token that cannot
    be processed is one without exactly one [=]. *)
Theorem parse_parameter_spec (parameters : jsobject) (token : jsstring) :
  (parse_parameter parameters token
   = Throw (Error (str "invalid dataurl parameter"))
   <-> count_char (ch "=") token <> 1%nat)
  /\ (forall parameters',
        parse_parameter parameters token = Ok parameters' ->
        exists a v ab vb,
          token = a ++ [ch "="] ++ v
          /\ count_char (ch "=") token = 1%nat
          /\ pct_decode a = Ok ab /\ pct_decode v = Ok vb
          /\ parameters'
             = if has_property parameters (Buffer_toString ab)
               then parameters
               else set_own parameters (Buffer_toString ab)
                      (Buffer_toString vb))
  /\ (forall s g1 g2 b64 mi tokens,
        match_dataurl s = Some (g1, g2) ->
        mediatype_tokens g1 = (b64, mi, tokens) ->
        parseSync s = Throw (Error (str "invalid dataurl parameter"))
        <-> exists before t after acc,
              tokens = before ++ t :: after
              /\ reduce parse_parameter before [] = Ok acc
              /\ count_char (ch "=") t <> 1%nat).
Proof.
  split; [ | split ].
  - apply parse_parameter_invalid.
  - intros parameters'. apply parse_parameter_ok.
  - intros s g1 g2 b64 mi tokens Hm Ht.
    rewrite (parseSync_invalid_parameter s Hm Ht).
    apply reduce_parse_parameter_invalid.
Qed.

Lemma parse_parameter_spec_witness :
  (parse_parameter [] (str "a=b") = Ok [(str "a", str "b")]
   /\ exists a v ab vb,
        str "a=b" = a ++ [ch "="] ++ v
        /\ count_char (ch "=") (str "a=b") = 1%nat
        /\ pct_decode a = Ok ab /\ pct_decode v = Ok vb
        /\ [(str "a", str "b")]
           = if has_property [] (Buffer_toString ab)
             then []
             else set_own [] (Buffer_toString ab) (Buffer_toString vb))
  /\ (match_dataurl (str "data:text/plain;a=b;c,x")
      = Some (str "text/plain;a=b;c", str "x")
      /\ mediatype_tokens (str "text/plain;a=b;c")
         = (None, Some (str "text/plain"), [str "a=b"; str "c"])
      /\ parseSync (str "data:text/plain;a=b;c,x")
         = Throw (Error (str "invalid dataurl parameter"))).
Proof.
  split.
  - split; [ reflexivity | ].
    exact (proj1 (proj2 (parse_parameter_spec [] (str "a=b"))) _ eq_refl).
  - split; [ reflexivity | split; [ reflexivity | ] ].
    apply (proj2 (proj2 (parse_parameter_spec [] []))
             (str "data:text/plain;a=b;c,x")
             (str "text/plain;a=b;c") (str "x")
             None (Some (str "text/plain")) [str "a=b"; str "c"]
             eq_refl eq_refl).
    exists [str "a=b"], (str "c"), [], [(str "a", str "b")].
    split; [ reflexivity | ]. split; [ reflexivity | ].
    discriminate.
Defined.

(* ================================================================= *)
(** ** parseSync: the media type and its defaults *)

Section Defaults.

Lemma inherited_charset : inherited (str "charset") = false.
Proof. reflexivity. Qed.

Lemma apply_defaults_mime m ps m' ps' :
  apply_defaults m ps = (m', ps') ->
  m' <> []
  \/ (m = [] /\ m' = [] /\ ps' = ps /\ ps <> []
      /\ has_property ps (str "charset") = false).
Proof.
  unfold apply_defaults, Object_keys. rewrite length_map.
  destruct m as [ | c m ]; simpl.
  - destruct ps as [ | kv ps ]; simpl.
    + intros H. injection H as <- <-. left. discriminate.
    + destruct (has_property (kv :: ps) (str "charset")) eqn:E;
        intros H; injection H as <- <-.
      * left. discriminate.
      * right. repeat split; auto. discriminate.
  - intros H. injection H as <- <-. left. discriminate.
Qed.

(** What [parseSync] returns, in terms of the header it extracted. *)
Lemma parseSync_ok s r :
  parseSync s = Ok r ->
  exists b64 m ps text payload,
    parse_header s = Ok (b64, Some m, ps, text)
    /\ (if truthy b64 then base64_decode else pct_decode) text = Ok payload
    /\ r = {| base64 := b64;
              mime := Some (fst (apply_defaults m ps));
              parameters := snd (apply_defaults m ps);
              data := VBuffer payload |}.
Proof.
  unfold parseSync.
  destruct (parse_header s) as [ [[[b64 mi] ps] text] | e ]; simpl;
    [ | discriminate ].
  destruct mi as [ m | ]; [ | discriminate ].
  destruct (apply_defaults m ps) as [m' ps'] eqn:Ed.
  destruct ((if truthy b64 then base64_decode else pct_decode) text)
    as [ payload | e ] eqn:Ep; simpl; [ | discriminate ].
  intros H. injection H as <-.
  exists b64, m, ps, text, payload.
  split; [ reflexivity | split; [ exact Ep | ] ].
  rewrite Ed. reflexivity.
Qed.

End Defaults.

(** C2, as the code has it: on success [mime] is a string, and it is
    empty only when the parameters are not empty and none of them is
    [charset]. *)
Theorem parseSync_mime (s : jsstring) (r : Info) :
  parseSync s = Ok r ->
  exists m,
    mime r = Some m
    /\ (m <> []
        \/ (parameters r <> []
            /\ has_property (parameters r) (str "charset") = false)).
Proof.
  intros H.
  apply parseSync_ok in H as (b64 & m & ps & text & payload & _ & _ & ->).
  simpl. destruct (apply_defaults m ps) as [m' ps'] eqn:Ed. simpl.
  exists m'. split; [ reflexivity | ].
  apply apply_defaults_mime in Ed as [H | (_ & _ & -> & H1 & H2)]; auto.
Qed.

Lemma parseSync_mime_witness :
  parseSync (str "data:,hello")
  = Ok {| base64 := None;
          mime := Some (str "text/plain");
          parameters := [(str "charset", str "US-ASCII")];
          data := VBuffer [x68; x65; x6c; x6c; x6f] |}
  /\ exists m,
       Some (str "text/plain") = Some m
       /\ (m <> []
           \/ ([(str "charset", str "US-ASCII")] <> []
               /\ has_property [(str "charset", str "US-ASCII")]
                    (str "charset") = false)).
Proof.
  split; [ reflexivity | ].
  exact (parseSync_mime (str "data:,hello") eq_refl).
Defined.

(** C2 as stated fails: a text with an empty media type token and a
    parameter other than [charset] parses to an empty [mime]. *)
Lemma parseSync_empty_mime :
  exists r,
    parseSync (str "data:;foo=bar,abc") = Ok r /\ mime r = Some (str "").
Proof.
  eexists. split; [ vm_compute; reflexivity | reflexivity ].
Qed.

(** C8: when the media type token is empty, [parseSync] sets the
    media type to [text/plain]; it adds the single parameter
    [charset=US-ASCII] if no parameter was given, and leaves the given
    parameters untouched if [charset] is among them.  The record is
    returned once the payload is decoded.  The text [data:,hello] is
    parsed accordingly. *)
Theorem parseSync_defaults
    (s : jsstring) (b64 : option bool) (ps : jsobject) (text : jsstring) :
  parse_header s = Ok (b64, Some (str ""), ps, text) ->
  (Object_keys ps = [] ->
   apply_defaults (str "") ps
   = (str "text/plain", [(str "charset", str "US-ASCII")])
   /\ parseSync s
      = (payload <- (if truthy b64 then base64_decode else pct_decode) text ;;
         Ok {| base64 := b64;
               mime := Some (str "text/plain");
               parameters := [(str "charset", str "US-ASCII")];
               data := VBuffer payload |}))
  /\ (Object_keys ps <> [] -> has_property ps (str "charset") = true ->
      apply_defaults (str "") ps = (str "text/plain", ps)
      /\ parseSync s
         = (payload <- (if truthy b64 then base64_decode else pct_decode)
                         text ;;
            Ok {| base64 := b64;
                  mime := Some (str "text/plain");
                  parameters := ps;
                  data := VBuffer payload |}))
  /\ parseSync (str "data:,hello")
     = Ok {| base64 := None;
             mime := Some (str "text/plain");
             parameters := [(str "charset", str "US-ASCII")];
             data := VBuffer [x68; x65; x6c; x6c; x6f] |}.
Proof.
  intros Hh. unfold parseSync. rewrite Hh. cbn [bind].
  split; [ | split ].
  - intros Hk. destruct ps; [ | discriminate Hk ].
    split; reflexivity.
  - intros Hk Hc.
    destruct ps as [ | kv ps ]; [ exfalso; apply Hk; reflexivity | ].
    assert (E : apply_defaults (str "") (kv :: ps)
                = (str "text/plain", kv :: ps)).
    { unfold apply_defaults. simpl length. simpl andb.
      rewrite Hc. reflexivity. }
    rewrite E. split; reflexivity.
  - reflexivity.
Qed.

Lemma parseSync_defaults_witness :
  parse_header (str "data:;charset=utf-8,abc")
  = Ok (None, Some (str ""), [(str "charset", str "utf-8")], str "abc")
  /\ parseSync (str "data:;charset=utf-8,abc")
     = Ok {| base64 := None;
             mime := Some (str "text/plain");
             parameters := [(str "charset", str "utf-8")];
             data := VBuffer [x61; x62; x63] |}.
Proof.
  split; [ reflexivity | ].
  refine (eq_trans
            (proj2 (proj1 (proj2 (@parseSync_defaults
                                    (str "data:;charset=utf-8,abc")
                                    None _ _ eq_refl)) _ eq_refl))
            eq_refl).
  discriminate.
Defined.

(* ================================================================= *)
(** ** UTF-8 *)

Ltac cmp_div :=
  repeat match goal with
    | |- context [?a <=? ?b] => destruct (N.leb_spec a b); try div_lia
    | |- context [?a <? ?b] => destruct (N.ltb_spec a b); try div_lia
    | |- context [?a =? ?b] => destruct (N.eqb_spec a b); try div_lia
    end.

Lemma to_N_byte_of_N n : n < 256 -> Byte.to_N (byte_of_N n) = n.
Proof.
  intros H. unfold byte_of_N. rewrite N.mod_small by assumption.
  destruct (Byte.of_N n) as [ b | ] eqn:E.
  - apply Byte.to_of_N. assumption.
  - apply Byte.of_N_None_iff in E. lia.
Qed.

Lemma utf8_step_lead n rest :
  n < 256 ->
  utf8_code_points utf8_init (byte_of_N n :: rest)
  = fst (utf8_lead n) ++ utf8_code_points (snd (utf8_lead n)) rest.
Proof.
  intros H. cbn [utf8_code_points]. rewrite to_N_byte_of_N by assumption.
  simpl (u_needed utf8_init =? 0). cbv iota.
  destruct (utf8_lead n). reflexivity.
Qed.

Lemma utf8_step_cont st n rest :
  n < 256 -> u_needed st <> 0 -> u_lower st <= n -> n <= u_upper st ->
  utf8_code_points st (byte_of_N n :: rest)
  = if u_needed st =? 1
    then (u_cp st * 0x40 + n mod 0x40) :: utf8_code_points utf8_init rest
    else utf8_code_points
           {| u_cp := u_cp st * 0x40 + n mod 0x40;
              u_needed := u_needed st - 1;
              u_lower := 0x80; u_upper := 0xBF |} rest.
Proof.
  intros H Hn Hl Hu. cbn [utf8_code_points].
  rewrite to_N_byte_of_N by assumption.
  destruct (N.eqb_spec (u_needed st) 0); [ contradiction | ].
  destruct (N.ltb_spec n (u_lower st)); [ lia | ].
  destruct (N.ltb_spec (u_upper st) n); [ lia | ].
  reflexivity.
Qed.

Lemma utf8_lead_1 n : n <= 0x7F -> utf8_lead n = ([n], utf8_init).
Proof.
  intros H. unfold utf8_lead. cmp_cases. reflexivity.
Qed.

Lemma utf8_lead_2 n :
  0xC2 <= n -> n <= 0xDF ->
  utf8_lead n
  = ([], {| u_cp := n mod 0x20; u_needed := 1;
            u_lower := 0x80; u_upper := 0xBF |}).
Proof.
  intros Hl Hu. unfold utf8_lead.
  destruct (N.leb_spec n 0x7F); [ lia | ].
  destruct (N.leb_spec 0xC2 n); [ | lia ].
  destruct (N.leb_spec n 0xDF); [ | lia ].
  reflexivity.
Qed.

Lemma utf8_lead_3 n :
  0xE0 <= n -> n <= 0xEF ->
  utf8_lead n
  = ([], {| u_cp := n mod 0x10; u_needed := 2;
            u_lower := if n =? 0xE0 then 0xA0 else 0x80;
            u_upper := if n =? 0xED then 0x9F else 0xBF |}).
Proof.
  intros Hl Hu. unfold utf8_lead.
  destruct (N.leb_spec n 0x7F); [ lia | ].
  destruct (N.leb_spec 0xC2 n); [ | lia ].
  destruct (N.leb_spec n 0xDF); [ lia | ].
  destruct (N.leb_spec 0xE0 n); [ | lia ].
  destruct (N.leb_spec n 0xEF); [ | lia ].
  reflexivity.
Qed.

Lemma utf8_lead_4 n :
  0xF0 <= n -> n <= 0xF4 ->
  utf8_lead n
  = ([], {| u_cp := n mod 0x08; u_needed := 3;
            u_lower := if n =? 0xF0 then 0x90 else 0x80;
            u_upper := if n =? 0xF4 then 0x8F else 0xBF |}).
Proof.
  intros Hl Hu. unfold utf8_lead.
  destruct (N.leb_spec n 0x7F); [ lia | ].
  destruct (N.leb_spec 0xC2 n); [ | lia ].
  destruct (N.leb_spec n 0xDF); [ lia | ].
  destruct (N.leb_spec 0xE0 n); [ | lia ].
  destruct (N.leb_spec n 0xEF); [ lia | ].
  destruct (N.leb_spec 0xF0 n); [ | lia ].
  destruct (N.leb_spec n 0xF4); [ | lia ].
  reflexivity.
Qed.

Ltac utf8_side :=
  cbn [u_needed u_lower u_upper u_cp]; cmp_div; div_lia.

Ltac utf8_cont :=
  rewrite utf8_step_cont by utf8_side;
  cbn [u_needed u_lower u_upper u_cp];
  match goal with
  | |- context [?a =? 1] =>
      let b := eval vm_compute in (a =? 1) in
      change (a =? 1) with b; cbv iota
  end;
  repeat match goal with
    | |- context [?a - 1] =>
        let b := eval vm_compute in (a - 1) in change (a - 1) with b
    end.

Lemma utf8_code_points_encode cp rest :
  is_scalar cp = true ->
  utf8_code_points utf8_init (utf8_of_code_point cp ++ rest)
  = cp :: utf8_code_points utf8_init rest.
Proof.
  unfold is_scalar. intros H.
  apply andb_true_iff in H as [H1 H2]. apply N.ltb_lt in H1.
  assert (Hs : cp < 0xD800 \/ 0xDFFF < cp).
  { destruct (N.leb_spec 0xD800 cp), (N.leb_spec cp 0xDFFF);
      simpl in H2; try discriminate; lia. }
  clear H2.
  unfold utf8_of_code_point.
  destruct (N.ltb_spec cp 0x80); [ | destruct (N.ltb_spec cp 0x800);
    [ | destruct (N.ltb_spec cp 0x10000) ] ]; cbn [app].
  - rewrite utf8_step_lead, utf8_lead_1 by lia. reflexivity.
  - rewrite utf8_step_lead, utf8_lead_2 by div_lia. cbn [fst snd app].
    utf8_cont. f_equal. div_lia.
  - rewrite utf8_step_lead, utf8_lead_3 by div_lia. cbn [fst snd app].
    utf8_cont. utf8_cont. f_equal. div_lia.
  - rewrite utf8_step_lead, utf8_lead_4 by div_lia. cbn [fst snd app].
    utf8_cont. utf8_cont. utf8_cont. f_equal. div_lia.
Qed.

Lemma utf16_of_bmp c : c < 0x10000 -> utf16_of_code_point c = [c].
Proof.
  intros H. unfold utf16_of_code_point.
  destruct (N.ltb_spec c 0x10000); [ reflexivity | lia ].
Qed.

Lemma utf16_of_pair c d :
  is_high_surrogate c = true -> is_low_surrogate d = true ->
  is_scalar (0x10000 + (c - 0xD800) * 0x400 + (d - 0xDC00)) = true
  /\ utf16_of_code_point (0x10000 + (c - 0xD800) * 0x400 + (d - 0xDC00))
     = [c; d].
Proof.
  unfold is_high_surrogate, is_low_surrogate, is_scalar, utf16_of_code_point.
  intros Hc Hd.
  apply andb_true_iff in Hc as [Hc1 Hc2]. apply andb_true_iff in Hd as [Hd1 Hd2].
  apply N.leb_le in Hc1, Hc2, Hd1, Hd2.
  split.
  - cmp_cases; reflexivity.
  - destruct (N.ltb_spec (65536 + (c - 55296) * 1024 + (d - 56320)) 65536);
      [ lia | ].
    f_equal; [ | f_equal ]; div_lia.
Qed.

Lemma Buffer_toString_app_code_point cp rest :
  is_scalar cp = true ->
  Buffer_toString (utf8_of_code_point cp ++ rest)
  = utf16_of_code_point cp ++ Buffer_toString rest.
Proof.
  intros H. unfold Buffer_toString.
  rewrite utf8_code_points_encode by assumption. reflexivity.
Qed.

Lemma utf8_roundtrip_bounded n :
  forall s, (length s <= n)%nat -> well_formed_utf16 s = true ->
            Buffer_toString (Buffer_from_utf8 s) = s.
Proof.
  induction n as [ | n IH ]; intros s Hlen Hwf.
  - destruct s; [ reflexivity | simpl in Hlen; lia ].
  - destruct s as [ | c rest ]; [ reflexivity | ].
    cbn [well_formed_utf16 Buffer_from_utf8] in *.
    destruct (is_high_surrogate c) eqn:Ehi.
    + destruct rest as [ | d rest' ]; [ discriminate | ].
      apply andb_true_iff in Hwf as [Hd Hwf]. rewrite Hd.
      destruct (utf16_of_pair c d Ehi Hd) as [Hsc Epair].
      rewrite Buffer_toString_app_code_point, Epair by assumption.
      rewrite IH; [ reflexivity | simpl in Hlen; lia | assumption ].
    + apply andb_true_iff in Hwf as [Hc Hwf].
      apply andb_true_iff in Hc as [Hlo Hc].
      apply negb_true_iff in Hlo. rewrite Hlo. apply N.ltb_lt in Hc.
      rewrite Buffer_toString_app_code_point, utf16_of_bmp by
        (try assumption; revert Ehi Hlo;
         unfold is_scalar, is_high_surrogate, is_low_surrogate;
         cmp_cases; cbn [andb negb]; congruence).
      rewrite IH; [ reflexivity | simpl in Hlen; lia | assumption ].
Qed.

(** Well-formed text survives the way through UTF-8 and back. *)
Lemma Buffer_toString_utf8 s :
  well_formed_utf16 s = true -> Buffer_toString (Buffer_from_utf8 s) = s.
Proof.
  apply (utf8_roundtrip_bounded (n := length s)). lia.
Qed.

(* ================================================================= *)
(** ** What composeSync writes and how parseSync cuts it *)

Section Compose.

Lemma count_char_zero sep s :
  Forall (fun c => c <> sep) s -> count_char sep s = 0%nat.
Proof.
  unfold count_char. induction 1 as [ | c s Hc _ IH ]; simpl.
  - reflexivity.
  - destruct (N.eqb_spec sep c); [ congruence | assumption ].
Qed.

Lemma count_char_pos sep a b : count_char sep (a ++ sep :: b) <> 0%nat.
Proof.
  rewrite count_char_app. unfold count_char at 2. simpl.
  rewrite N.eqb_refl. simpl. lia.
Qed.

Lemma hexdig_unreserved h : is_hexdig h = true -> is_unreserved h = true.
Proof.
  intros H. class_cases.
Qed.

Lemma pct_token_chars t :
  pct_token t -> Forall (fun c => is_pct_char c = true) t.
Proof.
  unfold is_pct_char. intros [ c Hc | h1 h2 H1 H2 ].
  - repeat constructor. rewrite Hc. reflexivity.
  - apply hexdig_unreserved in H1, H2.
    constructor; [ reflexivity | ].
    constructor; [ rewrite H1; reflexivity | ].
    constructor; [ rewrite H2; reflexivity | constructor ].
Qed.

Lemma Forall_concat_tokens (P : char -> Prop) toks :
  Forall (Forall P) toks -> Forall P (concat toks).
Proof.
  induction 1 as [ | t toks Ht _ IH ]; simpl.
  - constructor.
  - apply Forall_app. auto.
Qed.

Lemma pct_encode_arg a :
  pct_encode a = pct_encode (ArgBuffer (Buffer_from a)).
Proof. reflexivity. Qed.

(** [pct_encode] writes unreserved characters and percent signs only. *)
Lemma pct_encode_chars a :
  Forall (fun c => is_pct_char c = true) (pct_encode a).
Proof.
  rewrite pct_encode_arg, pct_encode_concat.
  apply Forall_concat_tokens.
  eapply Forall_impl; [ | apply pct_encode_tokens ].
  apply pct_token_chars.
Qed.

Lemma is_pct_char_plain c :
  is_pct_char c = true ->
  is_line_terminator c = false
  /\ c <> ch "," /\ c <> ch ";" /\ c <> ch "=".
Proof.
  unfold is_pct_char. intros H.
  repeat split; try (intros ->; discriminate H).
  class_cases.
Qed.

Lemma base64_digit_plain c :
  is_base64_digit c = true \/ c = ch "=" -> is_line_terminator c = false.
Proof.
  intros [H | ->]; [ | reflexivity ]. class_cases.
Qed.

Lemma base64_encode_chars a :
  Forall (fun c => is_line_terminator c = false) (base64_encode a).
Proof.
  unfold base64_encode.
  destruct (Buffer_toString_base64_wellformed (Buffer_from a))
    as (body & pad & -> & Hb & Hp).
  apply Forall_app. split.
  - eapply Forall_impl; [ | exact Hb ].
    intros c Hc. apply base64_digit_plain. auto.
  - destruct Hp as [-> | [-> | ->]]; repeat constructor.
Qed.

Lemma lang_star_dot s :
  Forall (fun c => is_line_terminator c = false) s -> lang (Star dot) s.
Proof.
  intros H. apply lang_star_class.
  eapply Forall_impl; [ | exact H ].
  intros c Hc. simpl. rewrite Hc. reflexivity.
Qed.

Lemma lang_literal p : lang (literal p) p.
Proof.
  induction p as [ | c p IH ]; simpl.
  - constructor.
  - apply (LCat (s1 := [c])); [ | assumption ].
    constructor. apply N.eqb_refl.
Qed.

Lemma strip_prefix_app p s : strip_prefix p (p ++ s) = Some s.
Proof.
  induction p as [ | c p IH ]; simpl.
  - destruct s; reflexivity.
  - rewrite N.eqb_refl. assumption.
Qed.

Lemma break_at_app c a b :
  Forall (fun x => x <> c) a -> break_at c (a ++ c :: b) = Some (a, b).
Proof.
  induction 1 as [ | x a Hx _ IH ]; simpl.
  - rewrite N.eqb_refl. reflexivity.
  - destruct (N.eqb_spec x c); [ contradiction | ].
    rewrite IH. reflexivity.
Qed.

(** A header without comma and line terminator, and a payload without
    line terminator, are the two groups of the match. *)
Lemma match_dataurl_composed header payload :
  Forall (fun c => is_line_terminator c = false /\ c <> ch ",") header ->
  Forall (fun c => is_line_terminator c = false) payload ->
  match_dataurl (str "data:" ++ header ++ str "," ++ payload)
  = Some (header, payload).
Proof.
  intros Hh Hp. unfold match_dataurl.
  replace (full_match dataurl_pattern
             (str "data:" ++ header ++ str "," ++ payload)) with true.
  - rewrite strip_prefix_app. apply break_at_app.
    eapply Forall_impl; [ | exact Hh ]. intros c [_ Hc]. exact Hc.
  - symmetry. apply full_match_lang. unfold dataurl_pattern.
    apply LCat; [ apply lang_literal | ].
    apply LCat.
    + apply lang_star_dot.
      eapply Forall_impl; [ | exact Hh ]. intros c [Hc _]. exact Hc.
    + apply (LCat (s1 := str ",")).
      * constructor. reflexivity.
      * apply lang_star_dot. assumption.
Qed.

End Compose.

Section Inverse.

Lemma join_snoc sep l x :
  l <> [] -> join sep l ++ sep ++ x = join sep (l ++ [x]).
Proof.
  induction l as [ | y l IH ]; intros Hne; [ congruence | ].
  destruct l as [ | z l ].
  - reflexivity.
  - change ((y :: z :: l) ++ [x]) with (y :: (z :: l) ++ [x]).
    rewrite (@join_cons sep y (z :: l)) by discriminate.
    rewrite (@join_cons sep y ((z :: l) ++ [x])) by (simpl; discriminate).
    rewrite <- IH by discriminate.
    rewrite <- !app_assoc. reflexivity.
Qed.

Lemma last_element_snoc l x : last_element (l ++ [x]) = Some x.
Proof.
  unfold last_element. rewrite map_app. apply last_last.
Qed.

Lemma last_element_in l :
  l <> [] -> exists x, last_element l = Some x /\ In x l.
Proof.
  induction l as [ | y l IH ]; intros Hne; [ congruence | ].
  destruct l as [ | z l ].
  - exists y. split; [ reflexivity | left; reflexivity ].
  - destruct IH as (x & E & Hin); [ discriminate | ].
    exists x. split; [ exact E | right; exact Hin ].
Qed.

Lemma last_element_cons y l :
  l <> [] -> last_element (y :: l) = last_element l.
Proof.
  destruct l; [ congruence | reflexivity ].
Qed.

(** The token of a parameter is no [base64]: it holds a [=]. *)
Lemma compose_parameter_not_base64 kv :
  string_eqb (compose_parameter kv) (str "base64") = false.
Proof.
  apply string_eqb_neq. intros E.
  assert (H : count_char (ch "=") (compose_parameter kv) = 0%nat).
  { rewrite E. reflexivity. }
  exact (count_char_pos (ch "=") (pct_encode (ArgString (fst kv)))
           (pct_encode (ArgString (snd kv))) H).
Qed.

Lemma compose_parameter_chars kv :
  Forall (fun c => is_line_terminator c = false
                   /\ c <> ch "," /\ c <> ch ";")
    (compose_parameter kv).
Proof.
  unfold compose_parameter.
  assert (H : forall a,
             Forall (fun c => is_line_terminator c = false
                              /\ c <> ch "," /\ c <> ch ";")
               (pct_encode a)).
  { intros a. eapply Forall_impl; [ | apply pct_encode_chars ].
    intros c Hc. apply is_pct_char_plain in Hc. tauto. }
  apply Forall_app. split; [ apply H | ].
  apply Forall_app. split; [ | apply H ].
  repeat constructor; discriminate.
Qed.

Lemma mime_safe_chars m :
  mime_safe m = true ->
  Forall (fun c => is_line_terminator c = false
                   /\ c <> ch "," /\ c <> ch ";") m.
Proof.
  unfold mime_safe. rewrite forallb_forall, Forall_forall.
  intros H c Hc. specialize (H c Hc).
  apply negb_true_iff in H.
  apply orb_false_iff in H as [H H3]. apply orb_false_iff in H as [H1 H2].
  repeat split; try assumption; intros ->; discriminate.
Qed.

(** Splitting one composed parameter at its [=]. *)
Lemma split_compose_parameter kv :
  split "=" (compose_parameter kv)
  = [pct_encode (ArgString (fst kv)); pct_encode (ArgString (snd kv))].
Proof.
  assert (H : forall a, count_char (ch "=") (pct_encode a) = 0%nat).
  { intros a. apply count_char_zero.
    eapply Forall_impl; [ | apply pct_encode_chars ].
    intros c Hc. apply is_pct_char_plain in Hc. tauto. }
  unfold split, compose_parameter.
  change (str "=" ++ pct_encode (ArgString (snd kv)))
    with (ch "=" :: pct_encode (ArgString (snd kv))).
  rewrite split_on_app by apply H.
  rewrite split_on_plain by apply H. reflexivity.
Qed.

Lemma has_own_keys o k : has_own o k = true <-> In k (Object_keys o).
Proof.
  induction o as [ | [k' v'] o IH ]; simpl.
  - split; [ discriminate | tauto ].
  - rewrite orb_true_iff, string_eqb_eq, IH. split; intros [H | H]; auto.
Qed.

Lemma set_own_fresh o k v :
  has_own o k = false -> set_own o k v = o ++ [(k, v)].
Proof.
  induction o as [ | [k' v'] o IH ]; simpl; intros H; [ reflexivity | ].
  apply orb_false_iff in H as [H1 H2].
  rewrite H1, IH by assumption. reflexivity.
Qed.

Lemma pct_roundtrip_arg a : pct_decode (pct_encode a) = Ok (Buffer_from a).
Proof.
  rewrite pct_encode_arg. apply pct_decode_encode_buffer.
Qed.

(** Parsing a composed parameter adds it to the object. *)
Lemma parse_parameter_composed acc k v :
  well_formed_utf16 k = true -> well_formed_utf16 v = true ->
  inherited k = false -> has_own acc k = false ->
  parse_parameter acc (compose_parameter (k, v)) = Ok (acc ++ [(k, v)]).
Proof.
  intros Hk Hv Hi Ho. unfold parse_parameter.
  rewrite split_compose_parameter. cbn [fst snd].
  rewrite !pct_roundtrip_arg. cbn [bind Buffer_from].
  rewrite !Buffer_toString_utf8 by assumption.
  unfold has_property. rewrite Ho, Hi. cbn [orb negb].
  rewrite set_own_fresh by assumption. reflexivity.
Qed.

Lemma reduce_composed ps :
  forall acc,
    NoDup (Object_keys (acc ++ ps)) -> parameters_ok ps = true ->
    reduce parse_parameter (List.map compose_parameter ps) acc
    = Ok (acc ++ ps).
Proof.
  induction ps as [ | [k v] ps IH ]; intros acc Hnd Hok; simpl.
  - rewrite app_nil_r. reflexivity.
  - simpl in Hok. apply andb_true_iff in Hok as [Hkv Hok].
    apply andb_true_iff in Hkv as [Hkv Hv].
    apply andb_true_iff in Hkv as [Hi Hk].
    apply negb_true_iff in Hi.
    assert (Ho : has_own acc k = false).
    { apply not_true_iff_false. intros H. apply has_own_keys in H.
      unfold Object_keys in Hnd. rewrite map_app in Hnd. simpl in Hnd.
      apply NoDup_remove_2 in Hnd. apply Hnd.
      apply in_or_app. left. exact H. }
    rewrite parse_parameter_composed by assumption. simpl.
    rewrite IH; [ rewrite <- app_assoc; reflexivity | | assumption ].
    rewrite <- app_assoc. exact Hnd.
Qed.

Lemma apply_defaults_keeps m ps :
  m <> [] \/ (ps <> [] /\ has_own ps (str "charset") = false) ->
  apply_defaults m ps = (m, ps).
Proof.
  unfold apply_defaults, has_property. rewrite inherited_charset.
  intros [H | [H1 H2]].
  - destruct m; [ congruence | reflexivity ].
  - rewrite H2. destruct ps; [ congruence | ].
    destruct m; reflexivity.
Qed.

Lemma composeSync_tokens r b :
  data r = VBuffer b ->
  composeSync r
  = Ok (str "data:"
        ++ join (str ";")
             (composed_tokens (mime_or_empty (mime r)) (parameters r)
                (truthy (base64 r)))
        ++ str ","
        ++ (if truthy (base64 r) then base64_encode else pct_encode)
             (ArgBuffer b)).
Proof.
  intros Hd. unfold composeSync, composed_tokens. rewrite Hd.
  destruct (truthy (base64 r)).
  - rewrite <- join_snoc by discriminate.
    rewrite <- !app_assoc. reflexivity.
  - rewrite !app_nil_r. reflexivity.
Qed.

Lemma composed_tokens_chars m ps flag :
  mime_safe m = true ->
  Forall
    (Forall (fun c => is_line_terminator c = false
                      /\ c <> ch "," /\ c <> ch ";"))
    (composed_tokens m ps flag).
Proof.
  intros Hm. unfold composed_tokens. apply Forall_app. split.
  - constructor; [ apply mime_safe_chars; assumption | ].
    apply Forall_forall. intros t Ht.
    apply in_map_iff in Ht as (kv & <- & _). apply compose_parameter_chars.
  - destruct flag; repeat constructor; discriminate.
Qed.

Lemma Forall_join (P : char -> Prop) sep l :
  Forall P sep -> Forall (Forall P) l -> Forall P (join sep l).
Proof.
  intros Hs. induction 1 as [ | x l Hx Hl IH ]; [ constructor | ].
  destruct l as [ | y l ]; [ exact Hx | ].
  rewrite join_cons by discriminate.
  apply Forall_app. split; [ exact Hx | ].
  apply Forall_app. split; [ exact Hs | exact IH ].
Qed.

(** The media type segment [composeSync] wrote splits into its tokens. *)
Lemma split_composed_tokens m ps flag :
  mime_safe m = true ->
  split ";" (join (str ";") (composed_tokens m ps flag))
  = composed_tokens m ps flag.
Proof.
  intros Hm. unfold split. apply split_on_joined.
  - discriminate.
  - eapply Forall_impl; [ | apply composed_tokens_chars; assumption ].
    intros t Ht. apply count_char_zero.
    eapply Forall_impl; [ | exact Ht ]. intros c (_ & _ & Hc). exact Hc.
Qed.

Lemma composed_last_not_base64 m ps :
  (ps = [] -> m <> str "base64") ->
  is_base64_token (last_element (m :: List.map compose_parameter ps)) = false.
Proof.
  intros Hm. destruct ps as [ | kv ps ].
  - simpl. apply string_eqb_neq. auto.
  - rewrite last_element_cons by discriminate.
    destruct (@last_element_in (List.map compose_parameter (kv :: ps)))
      as (x & -> & Hin); [ discriminate | ].
    apply in_map_iff in Hin as (kv' & <- & _).
    apply compose_parameter_not_base64.
Qed.

(** The header [parseSync] extracts from a composed text. *)
Lemma parse_header_composed m ps (flag : bool) payload :
  mime_safe m = true ->
  (flag = false -> ps = [] -> m <> str "base64") ->
  NoDup (Object_keys ps) -> parameters_ok ps = true ->
  Forall (fun c => is_line_terminator c = false) payload ->
  parse_header
    (str "data:" ++ join (str ";") (composed_tokens m ps flag)
     ++ str "," ++ payload)
  = Ok (if flag then Some true else None, Some m, ps, payload).
Proof.
  intros Hm Hb Hnd Hok Hp. unfold parse_header, mediatype_tokens.
  rewrite match_dataurl_composed; [ | | assumption ].
  - rewrite split_composed_tokens by assumption.
    unfold composed_tokens. destruct flag.
    + rewrite last_element_snoc. simpl is_base64_token.
      unfold pop. rewrite removelast_last. simpl shift. cbv iota beta.
      rewrite reduce_composed by assumption. reflexivity.
    + rewrite app_nil_r.
      rewrite composed_last_not_base64 by auto.
      simpl shift. cbv iota beta.
      rewrite reduce_composed by assumption. reflexivity.
  - apply Forall_join.
    + repeat constructor. discriminate.
    + eapply Forall_impl; [ | apply composed_tokens_chars; assumption ].
      intros t Ht. eapply Forall_impl; [ | exact Ht ].
      intros c (H1 & H2 & _). auto.
Qed.

Lemma encoded_payload_chars (flag : bool) b :
  Forall (fun c => is_line_terminator c = false)
    ((if flag then base64_encode else pct_encode) (ArgBuffer b)).
Proof.
  destruct flag; [ apply base64_encode_chars | ].
  eapply Forall_impl; [ | apply pct_encode_chars ].
  intros c Hc. apply is_pct_char_plain in Hc. tauto.
Qed.

End Inverse.

(** C1, as the code has it: a record whose payload is a buffer and whose
    media type is a string free of commas, semicolons and line
    terminators (and is not [base64] when it stands alone without the
    flag), whose parameter names are distinct and not inherited from
    [Object.prototype], whose parameter names and values are well-formed
    UTF-16, and which has a media type, or else parameters none of which
    is [charset], is composed to a text that [parseSync] parses back to
    the same media type, parameters and payload; the flag comes back as
    [true] when it was truthy and is left out otherwise. *)
Theorem parse_compose_inverse (r : Info) (m : jsstring) (b : bytes) :
  data r = VBuffer b ->
  mime r = Some m ->
  mime_safe m = true ->
  (truthy (base64 r) = false -> parameters r = [] -> m <> str "base64") ->
  NoDup (Object_keys (parameters r)) ->
  parameters_ok (parameters r) = true ->
  (m <> []
   \/ (parameters r <> []
       /\ has_own (parameters r) (str "charset") = false)) ->
  exists s,
    composeSync r = Ok s
    /\ parseSync s
       = Ok {| base64 := if truthy (base64 r) then Some true else None;
               mime := Some m;
               parameters := parameters r;
               data := VBuffer b |}.
Proof.
  intros Hd Hm Hsafe Hb64 Hnd Hok Hdef.
  rewrite (composeSync_tokens r Hd), Hm. cbn [mime_or_empty].
  eexists. split; [ reflexivity | ].
  unfold parseSync.
  rewrite parse_header_composed;
    try assumption; [ | apply encoded_payload_chars ].
  cbn [bind]. rewrite apply_defaults_keeps by assumption.
  destruct (truthy (base64 r)); cbn [truthy].
  - rewrite base64_decode_encode_buffer. reflexivity.
  - rewrite pct_decode_encode_buffer. reflexivity.
Qed.

Lemma parse_compose_inverse_witness :
  exists s,
    composeSync {| base64 := Some false;
                   mime := Some (str "image/svg+xml");
                   parameters := [(str "charset", str "utf-8")];
                   data := VBuffer [x3c; x00; xff] |} = Ok s
    /\ parseSync s
       = Ok {| base64 := None;
               mime := Some (str "image/svg+xml");
               parameters := [(str "charset", str "utf-8")];
               data := VBuffer [x3c; x00; xff] |}.
Proof.
  refine (@parse_compose_inverse
            {| base64 := Some false;
               mime := Some (str "image/svg+xml");
               parameters := [(str "charset", str "utf-8")];
               data := VBuffer [x3c; x00; xff] |}
            (str "image/svg+xml") [x3c; x00; xff]
            eq_refl eq_refl eq_refl _ _ eq_refl _).
  - intros _ H. discriminate H.
  - repeat constructor. simpl. tauto.
  - left. discriminate.
Defined.

(** C1 as stated fails: a record with an empty media type and the
    parameter [charset] comes back with the media type [text/plain]. *)
Lemma parse_compose_not_inverse :
  Buffer_isBuffer (data charset_only_record) = true
  /\ parameters charset_only_record <> []
  /\ exists s r',
       composeSync charset_only_record = Ok s
       /\ parseSync s = Ok r'
       /\ mime charset_only_record = Some (str "")
       /\ mime r' = Some (str "text/plain").
Proof.
  split; [ reflexivity | ]. split; [ discriminate | ].
  eexists. eexists.
  split; [ vm_compute; reflexivity | ].
  split; [ vm_compute; reflexivity | ].
  split; reflexivity.
Qed.

(* ================================================================= *)
(** ** parseSync: the match of line 101 *)

Section MatchDataurl.

Lemma lang_literal_inv p s : lang (literal p) s -> s = p.
Proof.
  revert s. induction p as [ | c p IH ]; intros s H; simpl in H.
  - apply lang_eps_inv in H. assumption.
  - apply lang_cat_inv in H as (s1 & s2 & -> & H1 & H2).
    apply lang_class_inv in H1 as (c' & -> & Hc).
    apply N.eqb_eq in Hc as <-. apply IH in H2 as ->. reflexivity.
Qed.

Lemma break_at_spec c s a b :
  break_at c s = Some (a, b) <->
  s = a ++ c :: b /\ Forall (fun x => x <> c) a.
Proof.
  split.
  - revert a. induction s as [ | x s IH ]; intros a; simpl;
      [ discriminate | ].
    destruct (N.eqb_spec x c) as [-> | Hx].
    + intros H. injection H as <- <-. split; [ reflexivity | constructor ].
    + destruct (break_at c s) as [ [a' b'] | ]; [ | discriminate ].
      intros H. injection H as <- <-.
      destruct (IH a' eq_refl) as [-> Ha].
      split; [ reflexivity | constructor; assumption ].
  - intros [-> H]. apply break_at_app. assumption.
Qed.

Lemma lang_star_dot_inv s :
  lang (Star dot) s -> Forall (fun c => is_line_terminator c = false) s.
Proof.
  intros H. apply lang_star_class in H.
  eapply Forall_impl; [ | exact H ].
  intros c Hc. simpl in Hc. apply negb_true_iff in Hc. exact Hc.
Qed.

(** The groups of the match: the text is [data:], the first group, a
    comma and the second group; no group holds a line terminator, and
    the first group, being lazy, holds no comma. *)
Lemma match_dataurl_spec s g1 g2 :
  match_dataurl s = Some (g1, g2) <->
  s = str "data:" ++ g1 ++ ch "," :: g2
  /\ Forall (fun c => is_line_terminator c = false /\ c <> ch ",") g1
  /\ Forall (fun c => is_line_terminator c = false) g2.
Proof.
  split.
  - unfold match_dataurl.
    destruct (full_match dataurl_pattern s) eqn:Em; [ | discriminate ].
    apply full_match_lang in Em. unfold dataurl_pattern in Em.
    apply lang_cat_inv in Em as (p & t & -> & Hp & Ht).
    apply lang_literal_inv in Hp as ->.
    apply lang_cat_inv in Ht as (a & t' & -> & Ha & Ht).
    apply lang_cat_inv in Ht as (k & b & -> & Hk & Hb).
    apply lang_class_inv in Hk as (c & -> & Hc).
    apply is_char_eq in Hc as ->.
    apply lang_star_dot_inv in Ha, Hb.
    rewrite strip_prefix_app. intros H.
    apply break_at_spec in H as [E Hg1].
    split; [ simpl in E |- *; rewrite E; reflexivity | ].
    assert (Hall : Forall (fun c => is_line_terminator c = false)
                     (g1 ++ ch "," :: g2)).
    { rewrite <- E. apply Forall_app. split; [ assumption | ].
      constructor; [ reflexivity | assumption ]. }
    apply Forall_app in Hall as [H1 H2]. apply Forall_inv_tail in H2.
    split; [ | assumption ].
    rewrite Forall_forall in *. auto.
  - intros (-> & H1 & H2).
    apply (match_dataurl_composed H1 H2).
Qed.

Lemma break_at_found c a b :
  exists x y, break_at c (a ++ c :: b) = Some (x, y).
Proof.
  induction a as [ | z a (x & y & IH) ]; simpl.
  - rewrite N.eqb_refl. eauto.
  - destruct (z =? c); [ eauto | ]. rewrite IH. eauto.
Qed.

(** [null] is returned exactly when the pattern does not match. *)
Lemma match_dataurl_none s :
  match_dataurl s = None <-> ~ lang dataurl_pattern s.
Proof.
  rewrite <- full_match_false. split.
  - intros H. destruct (full_match dataurl_pattern s) eqn:Em;
      [ | reflexivity ].
    exfalso. unfold match_dataurl in H. rewrite Em in H.
    apply full_match_lang in Em. unfold dataurl_pattern in Em.
    apply lang_cat_inv in Em as (p & t & -> & Hp & Ht).
    apply lang_literal_inv in Hp as ->.
    apply lang_cat_inv in Ht as (a & t' & -> & Ha & Ht).
    apply lang_cat_inv in Ht as (k & b & -> & Hk & Hb).
    apply lang_class_inv in Hk as (c & -> & Hc).
    apply is_char_eq in Hc as ->.
    rewrite strip_prefix_app in H.
    destruct (break_at_found (ch ",") a b) as (x & y & E).
    change (a ++ [ch ","] ++ b) with (a ++ ch "," :: b) in H.
    rewrite E in H. discriminate H.
  - intros H. unfold match_dataurl. rewrite H. reflexivity.
Qed.

End MatchDataurl.

(* ================================================================= *)
(** ** parseSync: the errors it raises *)

Section ParseErrors.

Lemma parse_parameter_throws ps t e :
  parse_parameter ps t = Throw e -> exists msg, e = Error msg.
Proof.
  unfold parse_parameter.
  destruct (split "=" t) as [ | s0 [ | s1 [ | s2 l ] ] ];
    try (intros H; injection H as <-; eauto).
  destruct (pct_decode s0) as [ a | e0 ] eqn:E0; simpl.
  - destruct (pct_decode s1) as [ v | e1 ] eqn:E1; simpl.
    + destruct (has_property ps (Buffer_toString a)); discriminate.
    + intros H. injection H as <-.
      apply pct_decode_throws in E1 as [-> _]. eauto.
  - intros H. injection H as <-.
    apply pct_decode_throws in E0 as [-> _]. eauto.
Qed.

Lemma reduce_parse_parameter_throws l :
  forall acc e,
    reduce parse_parameter l acc = Throw e -> exists msg, e = Error msg.
Proof.
  induction l as [ | t l IH ]; intros acc e; simpl; [ discriminate | ].
  destruct (parse_parameter acc t) as [ acc' | e' ] eqn:E; simpl.
  - apply IH.
  - intros H. injection H as <-. apply parse_parameter_throws in E.
    exact E.
Qed.

Lemma parse_header_throws s e :
  parse_header s = Throw e -> exists msg, e = Error msg.
Proof.
  unfold parse_header, mediatype_tokens.
  destruct (match_dataurl s) as [ [g1 g2] | ];
    [ | intros H; injection H as <-; eauto ].
  destruct (is_base64_token (last_element (split ";" g1))).
  - destruct (shift (pop (split ";" g1))) as [mi rest].
    destruct (reduce parse_parameter rest []) as [ ps | e' ] eqn:E;
      simpl; [ discriminate | ].
    intros H. injection H as <-.
    apply reduce_parse_parameter_throws in E. exact E.
  - destruct (shift (split ";" g1)) as [mi rest].
    destruct (reduce parse_parameter rest []) as [ ps | e' ] eqn:E;
      simpl; [ discriminate | ].
    intros H. injection H as <-.
    apply reduce_parse_parameter_throws in E. exact E.
Qed.

(** [info.mime] is [undefined] only when the media type segment is the
    single token [base64]. *)
Lemma parse_header_no_mime s b64 ps text :
  parse_header s = Ok (b64, None, ps, text) ->
  match_dataurl s = Some (str "base64", text).
Proof.
  unfold parse_header, mediatype_tokens, split.
  destruct (match_dataurl s) as [ [g1 g2] | ]; [ | discriminate ].
  pose proof (split_on_join (ch ";") g1 []) as Hj.
  destruct (split_on (ch ";") [] g1) as [ | x l ] eqn:Es.
  { exfalso. apply (split_on_nonempty _ _ _ Es). }
  destruct (is_base64_token (last_element (x :: l))) eqn:Eb.
  - destruct l as [ | y l ].
    + simpl. intros H. injection H as _ _ <-.
      simpl in Eb. apply string_eqb_eq in Eb. simpl in Hj.
      congruence.
    + change (pop (x :: y :: l)) with (x :: pop (y :: l)).
      cbn [shift].
      destruct (reduce parse_parameter (pop (y :: l)) []);
        simpl; discriminate.
  - cbn [shift].
    destruct (reduce parse_parameter l []); simpl; discriminate.
Qed.

(** [parseSync] throws a [TypeError] exactly on the texts whose media
    type segment is the single token [base64]; every other exception it
    throws is an [Error]. *)
Lemma parseSync_throws s e :
  parseSync s = Throw e ->
  (exists msg, e = Error msg)
  \/ (exists msg text,
        e = TypeError msg /\ match_dataurl s = Some (str "base64", text)).
Proof.
  unfold parseSync.
  destruct (parse_header s) as [ [[[b64 mi] ps] text] | e' ] eqn:Eh; simpl.
  - destruct mi as [ m | ].
    + destruct (apply_defaults m ps) as [m' ps'].
      destruct (truthy b64).
      * destruct (base64_decode text) as [ d | e' ] eqn:Ed; simpl;
          [ discriminate | ].
        intros H. injection H as <-.
        apply base64_decode_throws in Ed as [-> _]. eauto.
      * destruct (pct_decode text) as [ d | e' ] eqn:Ed; simpl;
          [ discriminate | ].
        intros H. injection H as <-.
        apply pct_decode_throws in Ed as [-> _]. eauto.
    + intros H. injection H as <-. right.
      apply parse_header_no_mime in Eh. eauto.
  - intros H. injection H as <-. left.
    apply parse_header_throws in Eh. exact Eh.
Qed.

Lemma parseSync_base64_only s text :
  match_dataurl s = Some (str "base64", text) ->
  parseSync s
  = Throw (TypeError
             (str "Cannot read properties of undefined (reading 'length')")).
Proof.
  intros H. unfold parseSync, parse_header. rewrite H. reflexivity.
Qed.

End ParseErrors.

(** C3: on a text whose media type segment is the single token
    [base64], [parseSync] pops that token, shifts [undefined] out of the
    empty array and throws a [TypeError] on [info.mime.length]. *)
Theorem parseSync_type_error :
  parseSync (str "data:base64,aGVsbG8=")
  = Throw (TypeError
             (str "Cannot read properties of undefined (reading 'length')")).
Proof.
  vm_compute. reflexivity.
Qed.


(** The conditions of the inverse property cannot be dropped. *)
Section InverseConditions.

(** A comma in the media type ends the media type segment. *)
Example comma_mime_not_inverse :
  bind (composeSync comma_mime_record) parseSync
  = Throw (Error (str "malformed data")).
Proof. vm_compute. reflexivity. Qed.

(** A parameter named like a property of [Object.prototype] is taken
    for a duplicate and dropped. *)
Example inherited_name_not_inverse :
  bind (composeSync inherited_name_record) parseSync
  = Ok {| base64 := Some true;
          mime := Some (str "text/plain");
          parameters := [];
          data := VBuffer [x61] |}.
Proof. vm_compute. reflexivity. Qed.

(** The media type [base64] alone is taken for the flag. *)
Example base64_mime_not_inverse :
  bind (composeSync base64_mime_record) parseSync
  = Throw (TypeError
             (str "Cannot read properties of undefined (reading 'length')")).
Proof. vm_compute. reflexivity. Qed.

(** A lone surrogate comes back as U+FFFD. *)
Example lone_surrogate_not_inverse :
  bind (composeSync lone_surrogate_record) parseSync
  = Ok {| base64 := Some true;
          mime := Some (str "text/plain");
          parameters := [(str "a", [0xFFFD])];
          data := VBuffer [x61] |}.
Proof. vm_compute. reflexivity. Qed.

End InverseConditions.

(* ================================================================= *)
(** ** More on parseSync: what it throws, and when *)

Section Exceptions.

Lemma parse_parameter_throws_which ps t e :
  parse_parameter ps t = Throw e ->
  e = invalid_parameter \/ e = malformed_data.
Proof.
  unfold parse_parameter.
  destruct (split "=" t) as [ | s0 [ | s1 [ | s2 l ] ] ];
    try (intros H; injection H as <-; left; reflexivity).
  destruct (pct_decode s0) as [ a | e0 ] eqn:E0; simpl.
  - destruct (pct_decode s1) as [ v | e1 ] eqn:E1; simpl.
    + destruct (has_property ps (Buffer_toString a)); discriminate.
    + intros H. injection H as <-.
      apply pct_decode_throws in E1 as [-> _]. right. reflexivity.
  - intros H. injection H as <-.
    apply pct_decode_throws in E0 as [-> _]. right. reflexivity.
Qed.

Lemma reduce_parse_parameter_throws_which l :
  forall acc e,
    reduce parse_parameter l acc = Throw e ->
    e = invalid_parameter \/ e = malformed_data.
Proof.
  induction l as [ | t l IH ]; intros acc e; simpl; [ discriminate | ].
  destruct (parse_parameter acc t) as [ acc' | e' ] eqn:E; simpl.
  - apply IH.
  - intros H. injection H as <-.
    apply parse_parameter_throws_which in E. exact E.
Qed.

(** The header is extracted, or one of three errors is thrown; the
    first of them exactly when the pattern of line 101 does not match. *)
Lemma parse_header_throws_which s e :
  parse_header s = Throw e ->
  (match_dataurl s = None /\ e = malformed_dataurl)
  \/ (match_dataurl s <> None
      /\ (e = invalid_parameter \/ e = malformed_data)).
Proof.
  unfold parse_header.
  destruct (match_dataurl s) as [ [g1 g2] | ].
  - destruct (mediatype_tokens g1) as [[b64 mi] tokens].
    destruct (reduce parse_parameter tokens []) as [ ps | e' ] eqn:E;
      simpl; [ discriminate | ].
    intros H. injection H as <-. right. split; [ discriminate | ].
    apply reduce_parse_parameter_throws_which in E. exact E.
  - intros H. injection H as <-. left. auto.
Qed.

Lemma lang_dataurl_pattern s : lang dataurl_pattern s <-> dataurl_shaped s.
Proof.
  unfold dataurl_shaped. split.
  - intros H. unfold dataurl_pattern in H.
    apply lang_cat_inv in H as (p & t & -> & Hp & Ht).
    apply lang_literal_inv in Hp as ->.
    apply lang_cat_inv in Ht as (a & t' & -> & Ha & Ht).
    apply lang_cat_inv in Ht as (k & b & -> & Hk & Hb).
    apply lang_class_inv in Hk as (c & -> & Hc).
    apply is_char_eq in Hc as ->.
    apply lang_star_dot_inv in Ha, Hb.
    exists a, b. auto.
  - intros (g1 & g2 & -> & H1 & H2). unfold dataurl_pattern.
    apply LCat; [ apply lang_literal | ].
    apply LCat; [ apply lang_star_dot; assumption | ].
    apply (LCat (s1 := [ch ","])).
    + constructor. reflexivity.
    + apply lang_star_dot. assumption.
Qed.

Lemma parseSync_throws_which s e :
  parseSync s = Throw e ->
  (match_dataurl s = None /\ e = malformed_dataurl)
  \/ (match_dataurl s <> None
      /\ (e = invalid_parameter \/ e = malformed_data
          \/ (e = undefined_length
              /\ exists text, match_dataurl s = Some (str "base64", text)))).
Proof.
  unfold parseSync.
  destruct (parse_header s) as [ [[[b64 mi] ps] text] | e' ] eqn:Eh; simpl.
  - assert (Hm : match_dataurl s <> None).
    { unfold parse_header in Eh.
      destruct (match_dataurl s); [ discriminate | discriminate Eh ]. }
    intros H. right. split; [ exact Hm | ].
    destruct mi as [ m | ].
    + destruct (apply_defaults m ps) as [m' ps'].
      right. left.
      destruct (truthy b64).
      * destruct (base64_decode text) as [ d | e'' ] eqn:Ed; simpl in H;
          [ discriminate H | ].
        injection H as <-.
        apply base64_decode_throws in Ed as [-> _]. reflexivity.
      * destruct (pct_decode text) as [ d | e'' ] eqn:Ed; simpl in H;
          [ discriminate H | ].
        injection H as <-.
        apply pct_decode_throws in Ed as [-> _]. reflexivity.
    + injection H as <-. right. right. split; [ reflexivity | ].
      apply parse_header_no_mime in Eh. eauto.
  - intros H. injection H as <-.
    apply parse_header_throws_which in Eh as [ [Hm ->] | [Hm He] ].
    + left. auto.
    + right. split; [ exact Hm | ]. tauto.
Qed.

End Exceptions.

(** X1: whatever [parseSync] throws is one of four exceptions: the
    three errors ["malformed dataurl"], ["invalid dataurl parameter"]
    and ["malformed data"], or the [TypeError] of reading [length] of
    [undefined]; the last one is thrown exactly on the texts
    [data:base64,] followed by a payload without line terminator. *)
Theorem parseSync_exceptions (s : jsstring) :
  (forall e,
     parseSync s = Throw e ->
     e = malformed_dataurl \/ e = invalid_parameter
     \/ e = malformed_data \/ e = undefined_length)
  /\ (parseSync s = Throw undefined_length
      <-> exists text,
            s = str "data:base64," ++ text
            /\ Forall (fun c => is_line_terminator c = false) text).
Proof.
  split.
  - intros e H. apply parseSync_throws_which in H. tauto.
  - split.
    + intros H.
      apply parseSync_throws_which in H
        as [ [_ H] | [_ [H | [H | [_ (text & H)]]]] ];
        try discriminate H.
      exists text. apply match_dataurl_spec in H as (-> & _ & H).
      split; [ reflexivity | exact H ].
    + intros (text & -> & H).
      apply (@parseSync_base64_only _ text).
      apply match_dataurl_spec. split; [ reflexivity | ].
      split; [ | exact H ].
      repeat constructor; discriminate.
Qed.

Lemma parseSync_exceptions_witness :
  parseSync (str "data:text/plain,%") = Throw malformed_data
  /\ (malformed_data = malformed_dataurl
      \/ malformed_data = invalid_parameter
      \/ malformed_data = malformed_data
      \/ malformed_data = undefined_length).
Proof.
  split; [ reflexivity | ].
  exact (proj1 (parseSync_exceptions (str "data:text/plain,%")) _ eq_refl).
Defined.

(** X2: [parseSync] throws ["malformed dataurl"] exactly on the texts
    that are not [data:], a segment, a comma and a payload, all without
    line terminators; so a line break anywhere makes the text
    malformed, and on a text of that shape this error is never thrown. *)
Theorem parseSync_malformed_dataurl (s : jsstring) :
  parseSync s = Throw malformed_dataurl <-> ~ dataurl_shaped s.
Proof.
  rewrite <- lang_dataurl_pattern, <- match_dataurl_none. split.
  - intros H.
    apply parseSync_throws_which in H
      as [ [H _] | [_ [H | [H | [H _]]]] ];
      [ exact H | discriminate H .. ].
  - intros H. unfold parseSync, parse_header. rewrite H. reflexivity.
Qed.

(* ================================================================= *)
(** ** The text of a buffer is well-formed *)

Section DecodedText.

Lemma utf8_init_ok : utf8_state_ok utf8_init.
Proof.
  unfold utf8_state_ok, utf8_init. simpl. repeat split; lia.
Qed.

Lemma scalar_fffd : is_scalar 0xFFFD = true.
Proof. reflexivity. Qed.

Lemma is_scalar_range a b cp :
  scalar_range a b -> a <= cp -> cp <= b -> is_scalar cp = true.
Proof.
  unfold scalar_range, is_scalar. intros [_ H] Ha Hb.
  cmp_cases; reflexivity.
Qed.

Lemma utf8_lead_bad n :
  (0x7F < n /\ n < 0xC2) \/ 0xF4 < n ->
  utf8_lead n = ([0xFFFD], utf8_init).
Proof.
  intros H. unfold utf8_lead.
  destruct (N.leb_spec n 0x7F); [ lia | ].
  destruct (N.leb_spec 0xC2 n), (N.leb_spec n 0xDF); cbn [andb]; try lia;
    destruct (N.leb_spec 0xE0 n), (N.leb_spec n 0xEF); cbn [andb]; try lia;
    destruct (N.leb_spec 0xF0 n), (N.leb_spec n 0xF4); cbn [andb]; try lia;
    reflexivity.
Qed.

(** A byte read in the initial state gives scalar values and a good
    state. *)
Lemma utf8_lead_ok n :
  n < 256 ->
  Forall (fun cp => is_scalar cp = true) (fst (utf8_lead n))
  /\ utf8_state_ok (snd (utf8_lead n)).
Proof.
  intros Hn.
  destruct (N.leb_spec n 0x7F);
    [ | destruct (N.ltb_spec n 0xC2);
        [ | destruct (N.leb_spec n 0xDF);
            [ | destruct (N.leb_spec n 0xEF);
                [ | destruct (N.leb_spec n 0xF4) ] ] ] ].
  - rewrite utf8_lead_1 by assumption. split; [ | apply utf8_init_ok ].
    repeat constructor. unfold is_scalar. cmp_cases; reflexivity.
  - rewrite utf8_lead_bad by lia.
    split; [ repeat constructor | apply utf8_init_ok ].
  - rewrite utf8_lead_2 by lia. split; [ constructor | ].
    unfold utf8_state_ok, scalar_range. cbn [snd u_cp u_needed u_lower u_upper].
    split; [ lia | ]. split; [ lia | ]. split; [ lia | ].
    right. left. split; [ reflexivity | ]. div_lia.
  - rewrite utf8_lead_3 by lia. split; [ constructor | ].
    unfold utf8_state_ok, scalar_range. cbn [snd u_cp u_needed u_lower u_upper].
    destruct (N.eqb_spec n 0xE0), (N.eqb_spec n 0xED); try lia;
      (split; [ lia | ]); (split; [ lia | ]); (split; [ lia | ]);
      right; right; left; (split; [ reflexivity | ]); div_lia.
  - rewrite utf8_lead_4 by lia. split; [ constructor | ].
    unfold utf8_state_ok, scalar_range. cbn [snd u_cp u_needed u_lower u_upper].
    destruct (N.eqb_spec n 0xF0), (N.eqb_spec n 0xF4); try lia;
      (split; [ lia | ]); (split; [ lia | ]); (split; [ lia | ]);
      right; right; right; (split; [ reflexivity | ]); div_lia.
  - rewrite utf8_lead_bad by lia.
    split; [ repeat constructor | apply utf8_init_ok ].
Qed.

(** A continuation byte in range completes a scalar value or leads to a
    good state. *)
Lemma utf8_cont_ok st n :
  utf8_state_ok st -> u_needed st <> 0 ->
  u_lower st <= n -> n <= u_upper st ->
  (u_needed st = 1 -> is_scalar (u_cp st * 0x40 + n mod 0x40) = true)
  /\ (u_needed st <> 1 ->
      utf8_state_ok {| u_cp := u_cp st * 0x40 + n mod 0x40;
                       u_needed := u_needed st - 1;
                       u_lower := 0x80; u_upper := 0xBF |}).
Proof.
  unfold utf8_state_ok, scalar_range.
  intros (Hl & Hlu & Hu & H) Hne Hln Hnu.
  destruct H as [ H | [ [H R] | [ [H R] | [H R] ] ] ]; try contradiction.
  - split; [ | congruence ]. intros _.
    apply (@is_scalar_range (u_cp st * 0x40 + u_lower st mod 0x40)
             (u_cp st * 0x40 + u_upper st mod 0x40));
      [ exact R | div_lia | div_lia ].
  - split; [ congruence | ]. intros _.
    cbn [u_cp u_needed u_lower u_upper]. rewrite H.
    repeat split; try lia. right. left. split; [ reflexivity | ]. div_lia.
  - split; [ congruence | ]. intros _.
    cbn [u_cp u_needed u_lower u_upper]. rewrite H.
    repeat split; try lia. right. right. left.
    split; [ reflexivity | ]. div_lia.
Qed.

(** The decoder emits scalar values only. *)
Lemma utf8_code_points_scalar bs :
  forall st,
    utf8_state_ok st ->
    Forall (fun cp => is_scalar cp = true) (utf8_code_points st bs).
Proof.
  induction bs as [ | b bs IH ]; intros st Hst; cbn [utf8_code_points].
  - destruct (u_needed st =? 0); repeat constructor.
  - pose proof (to_N_lt b) as Hb.
    destruct (utf8_lead_ok Hb) as [Hout Hst'].
    destruct (N.eqb_spec (u_needed st) 0) as [ E | E ].
    + destruct (utf8_lead (Byte.to_N b)) as [out st']. simpl in *.
      apply Forall_app. auto.
    + destruct (N.ltb_spec (Byte.to_N b) (u_lower st));
        [ | destruct (N.ltb_spec (u_upper st) (Byte.to_N b)) ];
        cbn [orb].
      * destruct (utf8_lead (Byte.to_N b)) as [out st']. simpl in *.
        constructor; [ reflexivity | ]. apply Forall_app. auto.
      * destruct (utf8_lead (Byte.to_N b)) as [out st']. simpl in *.
        constructor; [ reflexivity | ]. apply Forall_app. auto.
      * destruct (@utf8_cont_ok st (Byte.to_N b)) as [H1 H2]; try assumption.
        destruct (N.eqb_spec (u_needed st) 1) as [ E1 | E1 ].
        -- constructor; [ auto | apply IH, utf8_init_ok ].
        -- apply IH. auto.
Qed.

Lemma utf16_of_scalar cp rest :
  is_scalar cp = true ->
  well_formed_utf16 (utf16_of_code_point cp ++ rest)
  = well_formed_utf16 rest.
Proof.
  unfold is_scalar, utf16_of_code_point. intros H.
  apply andb_true_iff in H as [H1 H2]. apply N.ltb_lt in H1.
  apply negb_true_iff in H2.
  destruct (N.ltb_spec cp 0x10000) as [ Hc | Hc ];
    cbn [app well_formed_utf16].
  - unfold is_high_surrogate, is_low_surrogate.
    revert H2. cmp_cases; cbn [andb negb]; try discriminate; reflexivity.
  - assert (Hh : is_high_surrogate (0xD800 + (cp - 0x10000) / 0x400) = true).
    { unfold is_high_surrogate. apply andb_true_iff.
      split; apply N.leb_le; div_lia. }
    assert (Hl : is_low_surrogate (0xDC00 + (cp - 0x10000) mod 0x400) = true).
    { unfold is_low_surrogate. apply andb_true_iff.
      split; apply N.leb_le; div_lia. }
    rewrite Hh, Hl. reflexivity.
Qed.

(** [buffer.toString()] never returns a lone surrogate. *)
Lemma Buffer_toString_well_formed b :
  well_formed_utf16 (Buffer_toString b) = true.
Proof.
  unfold Buffer_toString.
  pose proof (utf8_code_points_scalar b utf8_init_ok) as H.
  induction H as [ | cp cps Hcp _ IH ]; [ reflexivity | ].
  cbn [flat_map]. rewrite utf16_of_scalar by assumption. exact IH.
Qed.

End DecodedText.

(* ================================================================= *)
(** ** The parameters of a parsed record *)

Section ParsedParameters.

(** Processing a token leaves the object as it is or adds one property
    under a name that was not there, not even by inheritance. *)
Lemma parse_parameter_step acc t acc' :
  parse_parameter acc t = Ok acc' ->
  acc' = acc
  \/ exists ab vb,
       has_property acc (Buffer_toString ab) = false
       /\ acc' = acc ++ [(Buffer_toString ab, Buffer_toString vb)].
Proof.
  intros H. apply parse_parameter_ok in H as (a & v & ab & vb & _ & _ & _ & _ & ->).
  destruct (has_property acc (Buffer_toString ab)) eqn:E; [ left; reflexivity | ].
  right. exists ab, vb. split; [ exact E | ].
  apply set_own_fresh. unfold has_property in E.
  apply orb_false_iff in E as [E _]. exact E.
Qed.

Lemma get_own_app o o' k v :
  get_own o k = Some v -> get_own (o ++ o') k = Some v.
Proof.
  induction o as [ | [k' v'] o IH ]; simpl; [ discriminate | ].
  destruct (string_eqb k k'); auto.
Qed.

Lemma reduce_split (A B : Type) (f : B -> A -> result B) l1 l2 :
  forall acc acc',
    reduce f (l1 ++ l2) acc = Ok acc' ->
    exists mid, reduce f l1 acc = Ok mid /\ reduce f l2 mid = Ok acc'.
Proof.
  induction l1 as [ | x l1 IH ]; intros acc acc'; simpl.
  - eauto.
  - destruct (f acc x); simpl; [ apply IH | discriminate ].
Qed.

(** Later tokens never change a property that is stored. *)
Lemma reduce_parse_parameter_keeps tokens :
  forall acc acc' k v,
    reduce parse_parameter tokens acc = Ok acc' ->
    get_own acc k = Some v -> get_own acc' k = Some v.
Proof.
  induction tokens as [ | t tokens IH ]; intros acc acc' k v; simpl.
  - intros H. injection H as <-. auto.
  - destruct (parse_parameter acc t) as [ acc1 | e ] eqn:Et; simpl;
      [ | discriminate ].
    intros H Hk. apply (IH _ _ _ _ H).
    apply parse_parameter_step in Et as [ -> | (ab & vb & _ & ->) ];
      [ exact Hk | apply get_own_app; exact Hk ].
Qed.

Lemma apply_defaults_keeps_properties m ps k v :
  get_own ps k = Some v -> get_own (snd (apply_defaults m ps)) k = Some v.
Proof.
  unfold apply_defaults. destruct ps as [ | kv ps ]; [ discriminate | ].
  rewrite andb_false_r.
  destruct (Nat.eqb (length m) 0 && has_property (kv :: ps) (str "charset"));
    auto.
Qed.

Lemma parameters_ok_app o o' :
  parameters_ok (o ++ o') = parameters_ok o && parameters_ok o'.
Proof.
  unfold parameters_ok. apply forallb_app.
Qed.

Lemma has_own_false_keys o k :
  has_own o k = false -> ~ In k (Object_keys o).
Proof.
  intros H Hin. apply has_own_keys in Hin. congruence.
Qed.

Lemma NoDup_snoc (A : Type) (l : list A) x :
  NoDup l -> ~ In x l -> NoDup (l ++ [x]).
Proof.
  induction 1 as [ | y l Hy Hnd IH ]; intros Hx; simpl.
  - repeat constructor. auto.
  - constructor.
    + intros Hin. apply in_app_or in Hin as [Hin | [-> | []]].
      * contradiction.
      * apply Hx. left. reflexivity.
    + apply IH. intros Hin. apply Hx. right. exact Hin.
Qed.

(** One token keeps the names distinct, not inherited, and the texts
    well-formed. *)
Lemma parse_parameter_inv acc t acc' :
  NoDup (Object_keys acc) -> parameters_ok acc = true ->
  parse_parameter acc t = Ok acc' ->
  NoDup (Object_keys acc') /\ parameters_ok acc' = true.
Proof.
  intros Hnd Hok H.
  apply parse_parameter_step in H as [ -> | (ab & vb & Hp & ->) ];
    [ auto | ].
  unfold has_property in Hp. apply orb_false_iff in Hp as [Ho Hi].
  split.
  - unfold Object_keys. rewrite map_app. simpl.
    apply NoDup_snoc; [ exact Hnd | ].
    apply has_own_false_keys. exact Ho.
  - rewrite parameters_ok_app, Hok. simpl.
    rewrite Hi, !Buffer_toString_well_formed. reflexivity.
Qed.

Lemma reduce_parse_parameter_inv tokens :
  forall acc acc',
    NoDup (Object_keys acc) -> parameters_ok acc = true ->
    reduce parse_parameter tokens acc = Ok acc' ->
    NoDup (Object_keys acc') /\ parameters_ok acc' = true.
Proof.
  induction tokens as [ | t tokens IH ]; intros acc acc' Hnd Hok; simpl.
  - intros H. injection H as <-. auto.
  - destruct (parse_parameter acc t) as [ acc1 | e ] eqn:Et; simpl;
      [ | discriminate ].
    destruct (@parse_parameter_inv acc t acc1 Hnd Hok Et) as [Hnd1 Hok1].
    apply IH; assumption.
Qed.

Lemma apply_defaults_inv m ps :
  NoDup (Object_keys ps) -> parameters_ok ps = true ->
  NoDup (Object_keys (snd (apply_defaults m ps)))
  /\ parameters_ok (snd (apply_defaults m ps)) = true.
Proof.
  intros Hnd Hok. unfold apply_defaults.
  destruct ps as [ | kv ps ].
  - destruct m; simpl; [ | split; [ constructor | reflexivity ] ].
    split; [ repeat constructor; auto | reflexivity ].
  - rewrite andb_false_r.
    destruct (Nat.eqb (length m) 0 && has_property (kv :: ps) (str "charset"));
      auto.
Qed.

(** The header behind a parsed record, step by step. *)
Lemma parse_header_ok s b64 mi ps text :
  parse_header s = Ok (b64, mi, ps, text) ->
  exists g1 tokens,
    match_dataurl s = Some (g1, text)
    /\ mediatype_tokens g1 = (b64, mi, tokens)
    /\ reduce parse_parameter tokens [] = Ok ps.
Proof.
  unfold parse_header.
  destruct (match_dataurl s) as [ [g1 g2] | ]; [ | discriminate ].
  destruct (mediatype_tokens g1) as [[b mi'] tokens] eqn:Et.
  destruct (reduce parse_parameter tokens []) as [ ps' | e ] eqn:E; simpl;
    [ | discriminate ].
  intros H. injection H as <- <- <- <-.
  exists g1, tokens. auto.
Qed.

End ParsedParameters.

(** X3: the first occurrence of a parameter wins.  When the parameter
    tokens of a text that [parseSync] parses are cut in two, what the
    first part stores under a name is in the record under that name,
    whatever the second part holds. *)
Theorem parameters_first_wins
    (s : jsstring) (r : Info) (g1 g2 : jsstring) (b64 : option bool)
    (mi : option jsstring) (before after : list jsstring)
    (acc : jsobject) (k v : jsstring) :
  parseSync s = Ok r ->
  match_dataurl s = Some (g1, g2) ->
  mediatype_tokens g1 = (b64, mi, before ++ after) ->
  reduce parse_parameter before [] = Ok acc ->
  get_own acc k = Some v ->
  get_own (parameters r) k = Some v.
Proof.
  intros Hr Hm Ht Hb Hk.
  apply parseSync_ok in Hr as (b & m & ps & text & payload & Hh & _ & ->).
  apply parse_header_ok in Hh as (g1' & tokens & Hm' & Ht' & Hps).
  rewrite Hm in Hm'. injection Hm' as <- <-.
  rewrite Ht in Ht'. injection Ht' as _ _ <-.
  apply reduce_split in Hps as (mid & Hb' & Ha).
  rewrite Hb in Hb'. injection Hb' as <-.
  cbn [parameters]. apply apply_defaults_keeps_properties.
  apply (reduce_parse_parameter_keeps _ _ _ Ha Hk).
Qed.

Lemma parameters_first_wins_witness :
  parseSync (str "data:text/plain;a=1;a=2,x")
  = Ok {| base64 := None;
          mime := Some (str "text/plain");
          parameters := [(str "a", str "1")];
          data := VBuffer [x78] |}
  /\ reduce parse_parameter [str "a=1"] [] = Ok [(str "a", str "1")]
  /\ get_own [(str "a", str "1")] (str "a") = Some (str "1").
Proof.
  split; [ reflexivity | ]. split; [ reflexivity | ].
  exact (@parameters_first_wins
           (str "data:text/plain;a=1;a=2,x")
           {| base64 := None;
              mime := Some (str "text/plain");
              parameters := [(str "a", str "1")];
              data := VBuffer [x78] |}
           (str "text/plain;a=1;a=2") (str "x") None
           (Some (str "text/plain")) [str "a=1"] [str "a=2"]
           [(str "a", str "1")] (str "a") (str "1")
           eq_refl eq_refl eq_refl eq_refl eq_refl).
Defined.

(** X4: in a record [parseSync] returns, the parameter names are
    distinct, none of them is a name inherited from [Object.prototype],
    and names and values are well-formed UTF-16. *)
Theorem parsed_parameters_invariant (s : jsstring) (r : Info) :
  parseSync s = Ok r ->
  NoDup (Object_keys (parameters r))
  /\ Forall (fun kv => inherited (fst kv) = false
                       /\ well_formed_utf16 (fst kv) = true
                       /\ well_formed_utf16 (snd kv) = true)
       (parameters r).
Proof.
  intros Hr.
  apply parseSync_ok in Hr as (b & m & ps & text & payload & Hh & _ & ->).
  apply parse_header_ok in Hh as (g1 & tokens & _ & _ & Hps).
  cbn [parameters].
  destruct (@reduce_parse_parameter_inv tokens [] ps) as [Hnd Hok];
    [ constructor | reflexivity | exact Hps | ].
  destruct (@apply_defaults_inv m ps Hnd Hok) as [Hnd' Hok'].
  split; [ exact Hnd' | ].
  unfold parameters_ok in Hok'. rewrite forallb_forall in Hok'.
  apply Forall_forall. intros kv Hin. specialize (Hok' kv Hin).
  apply andb_true_iff in Hok' as [H Hv].
  apply andb_true_iff in H as [Hi Hkw].
  apply negb_true_iff in Hi. auto.
Qed.

Lemma parsed_parameters_invariant_witness :
  NoDup (Object_keys [(str "a", str "1")])
  /\ Forall (fun kv => inherited (fst kv) = false
                       /\ well_formed_utf16 (fst kv) = true
                       /\ well_formed_utf16 (snd kv) = true)
       [(str "a", str "1")].
Proof.
  exact (@parsed_parameters_invariant
           (str "data:text/plain;a=1;a=2,x")
           {| base64 := None;
              mime := Some (str "text/plain");
              parameters := [(str "a", str "1")];
              data := VBuffer [x78] |}
           eq_refl).
Defined.

(* ================================================================= *)
(** ** The media type segment of a parsed text *)

Section MediaType.

Lemma last_element_split_on sep t a :
  forall piece,
    last_element (split_on sep piece (a ++ sep :: t))
    = last_element (split_on sep [] t).
Proof.
  induction a as [ | c a IH ]; intros piece; simpl app; cbn [split_on].
  - rewrite N.eqb_refl.
    apply last_element_cons, split_on_nonempty.
  - destruct (c =? sep).
    + rewrite last_element_cons by apply split_on_nonempty. apply IH.
    + apply IH.
Qed.

Lemma is_base64_token_iff x :
  is_base64_token x = true <-> x = Some (str "base64").
Proof.
  destruct x as [ t | ]; simpl.
  - rewrite string_eqb_eq. split; congruence.
  - split; discriminate.
Qed.

(** The last token is [base64] exactly when the segment is [base64] or
    ends with [;base64]. *)
Lemma last_token_base64 g1 :
  is_base64_token (last_element (split ";" g1)) = true
  <-> g1 = str "base64" \/ exists pre, g1 = pre ++ str ";base64".
Proof.
  rewrite is_base64_token_iff. unfold split. split.
  - intros H.
    pose proof (split_on_join (ch ";") g1 []) as Hj.
    destruct (exists_last (split_on_nonempty (ch ";") g1 []))
      as (l & x & E).
    rewrite E in H, Hj. rewrite last_element_snoc in H.
    injection H as ->. simpl in Hj. rewrite <- Hj.
    destruct l as [ | y l ]; [ left; reflexivity | right ].
    exists (join [ch ";"] (y :: l)).
    symmetry. apply (join_snoc [ch ";"] (str "base64")). discriminate.
  - intros [ -> | (pre & ->) ]; [ reflexivity | ].
    change (pre ++ str ";base64") with (pre ++ ch ";" :: str "base64").
    rewrite last_element_split_on. reflexivity.
Qed.

(** The first piece of a split text is the text up to the first
    separator. *)
Lemma split_on_first sep s :
  forall piece x l,
    split_on sep piece s = x :: l ->
    exists a rest,
      x = piece ++ a /\ s = a ++ rest
      /\ Forall (fun c => c <> sep) a
      /\ ((rest = [] /\ l = []) \/ exists t, rest = sep :: t).
Proof.
  induction s as [ | c s IH ]; intros piece x l; cbn [split_on].
  - intros H. injection H as <- <-.
    exists [], []. rewrite app_nil_r.
    repeat split; [ constructor | left; auto ].
  - destruct (N.eqb_spec c sep) as [ -> | Hc ].
    + intros H. injection H as <- <-.
      exists [], (sep :: s). rewrite app_nil_r.
      repeat split; [ constructor | right; eauto ].
    + intros H. apply IH in H as (a & rest & -> & -> & Ha & Hr).
      exists (c :: a), rest. rewrite <- app_assoc.
      repeat split; [ constructor; assumption | exact Hr ].
Qed.

Lemma app_break_unique (c : char) a a' b b' :
  Forall (fun x => x <> c) a -> Forall (fun x => x <> c) a' ->
  a ++ c :: b = a' ++ c :: b' -> a = a' /\ b = b'.
Proof.
  intros Ha Ha' E.
  pose proof (break_at_app b Ha) as H.
  rewrite E, (break_at_app b' Ha') in H.
  injection H as -> ->. auto.
Qed.

(** What lines 106 to 116 make of the segment: the flag is [true] or
    absent, and the media type, when there is one, is the text before
    the first semicolon. *)
Lemma mediatype_tokens_spec g1 b64 mi tokens :
  mediatype_tokens g1 = (b64, mi, tokens) ->
  b64 = (if is_base64_token (last_element (split ";" g1))
         then Some true else None)
  /\ forall m,
       mi = Some m ->
       exists rest,
         g1 = m ++ rest
         /\ Forall (fun c => c <> ch ";") m
         /\ (rest = [] \/ exists t, rest = ch ";" :: t).
Proof.
  unfold mediatype_tokens, split.
  destruct (split_on (ch ";") [] g1) as [ | x l ] eqn:Es.
  { exfalso. apply (split_on_nonempty _ _ _ Es). }
  apply split_on_first in Es as (a & rest & -> & -> & Ha & Hr).
  simpl app.
  assert (Hrest : rest = [] \/ exists t, rest = ch ";" :: t).
  { destruct Hr as [ [-> _] | Hr ]; auto. }
  match goal with
  | |- context [is_base64_token ?t] => destruct (is_base64_token t)
  end.
  - destruct l as [ | y l ].
    + simpl. intros H. injection H as <- <- <-.
      split; [ reflexivity | discriminate ].
    + change (pop (a :: y :: l)) with (a :: pop (y :: l)). cbn [shift].
      intros H. injection H as <- <- <-.
      split; [ reflexivity | ].
      intros m Hm. injection Hm as <-. exists rest. auto.
  - cbn [shift]. intros H. injection H as <- <- <-.
    split; [ reflexivity | ].
    intros m Hm. injection Hm as <-. exists rest. auto.
Qed.

Lemma mime_safe_iff m :
  mime_safe m = true
  <-> Forall (fun c => is_line_terminator c = false
                       /\ c <> ch "," /\ c <> ch ";") m.
Proof.
  split; [ apply mime_safe_chars | ].
  unfold mime_safe. rewrite forallb_forall, Forall_forall.
  intros H c Hc. destruct (H c Hc) as (H1 & H2 & H3).
  rewrite H1. unfold is_char.
  destruct (N.eqb_spec c (ch ",")); [ contradiction | ].
  destruct (N.eqb_spec c (ch ";")); [ contradiction | ].
  reflexivity.
Qed.

(** What is known of the header of a parsed text. *)
Lemma parse_header_facts s b64 m ps text :
  parse_header s = Ok (b64, Some m, ps, text) ->
  (b64 = Some true \/ b64 = None)
  /\ mime_safe m = true
  /\ NoDup (Object_keys ps) /\ parameters_ok ps = true
  /\ exists g1 rest,
       match_dataurl s = Some (g1, text)
       /\ g1 = m ++ rest
       /\ (rest = [] \/ exists t, rest = ch ";" :: t)
       /\ g1 <> str "base64"
       /\ b64 = (if is_base64_token (last_element (split ";" g1))
                 then Some true else None).
Proof.
  intros H.
  apply parse_header_ok in H as (g1 & tokens & Hm & Ht & Hps).
  assert (Hne : g1 <> str "base64").
  { intros ->. discriminate Ht. }
  apply mediatype_tokens_spec in Ht as [Hb Hmi].
  destruct (Hmi m eq_refl) as (rest & Eg & Hsemi & Hrest).
  pose proof Hm as Hm'.
  apply match_dataurl_spec in Hm' as (_ & Hg1 & _).
  destruct (@reduce_parse_parameter_inv tokens [] ps) as [Hnd Hok];
    [ constructor | reflexivity | exact Hps | ].
  split; [ | split; [ | split; [ exact Hnd | split; [ exact Hok | ] ] ] ].
  - rewrite Hb. destruct (is_base64_token _); auto.
  - apply mime_safe_iff. rewrite Eg in Hg1.
    apply Forall_app in Hg1 as [Hg1 _].
    rewrite Forall_forall in *. intros c Hc.
    destruct (Hg1 c Hc). auto.
  - exists g1, rest. auto.
Qed.

Lemma apply_defaults_fst m ps :
  fst (apply_defaults m ps) = m
  \/ (m = [] /\ fst (apply_defaults m ps) = str "text/plain").
Proof.
  unfold apply_defaults. destruct m as [ | c m ]; simpl.
  - destruct (Nat.eqb (length (Object_keys ps)) 0); [ auto | ].
    destruct (has_property ps (str "charset")); auto.
  - auto.
Qed.

End MediaType.

(** X5: the flag of a parsed record is [true] or absent, never [false];
    it is [true] exactly when the text before the first comma ends with
    [;base64], so that [base64] anywhere else in the media type segment
    is no flag. *)
Theorem base64_flag_position (s : jsstring) (r : Info) :
  parseSync s = Ok r ->
  (base64 r = Some true \/ base64 r = None)
  /\ (base64 r = Some true
      <-> exists pre text,
            s = str "data:" ++ pre ++ str ";base64," ++ text
            /\ Forall (fun c => c <> ch ",") pre).
Proof.
  intros Hr.
  apply parseSync_ok in Hr as (b & m & ps & text & payload & Hh & _ & ->).
  cbn [base64].
  apply parse_header_facts in Hh
    as (Hb & _ & _ & _ & g1 & rest & Hm & _ & _ & Hne & Eb).
  apply match_dataurl_spec in Hm as (-> & Hg1 & _).
  assert (Hcomma : Forall (fun c => c <> ch ",") g1).
  { eapply Forall_impl; [ | exact Hg1 ]. intros c [_ Hc]. exact Hc. }
  split; [ exact Hb | ]. split.
  - intros E. rewrite E in Eb.
    destruct (is_base64_token (last_element (split ";" g1))) eqn:El;
      [ | discriminate Eb ].
    apply last_token_base64 in El as [ -> | (pre & ->) ];
      [ congruence | ].
    exists pre, text. split.
    + rewrite <- !app_assoc. reflexivity.
    + apply Forall_app in Hcomma as [H _]. exact H.
  - intros (pre & text' & E & Hpre).
    assert (Eg : g1 = pre ++ str ";base64").
    { apply app_inv_head in E.
      change (pre ++ str ";base64," ++ text')
        with (pre ++ str ";base64" ++ ch "," :: text') in E.
      rewrite app_assoc in E.
      apply app_break_unique in E as [E _]; [ exact E | exact Hcomma | ].
      apply Forall_app. split; [ exact Hpre | ].
      repeat constructor; discriminate. }
    rewrite Eb.
    replace (is_base64_token (last_element (split ";" g1))) with true;
      [ reflexivity | ].
    symmetry. apply last_token_base64. right. eauto.
Qed.

Lemma base64_flag_position_witness :
  parseSync (str "data:text/plain;base64,aGVsbG8=")
  = Ok {| base64 := Some true;
          mime := Some (str "text/plain");
          parameters := [];
          data := VBuffer [x68; x65; x6c; x6c; x6f] |}
  /\ (Some true = Some true \/ Some true = None).
Proof.
  split; [ reflexivity | ].
  exact (proj1 (@base64_flag_position
                  (str "data:text/plain;base64,aGVsbG8=")
                  {| base64 := Some true;
                     mime := Some (str "text/plain");
                     parameters := [];
                     data := VBuffer [x68; x65; x6c; x6c; x6f] |}
                  eq_refl)).
Defined.

(** X6: the media type of a parsed record is taken from the text as it
    stands, without percent-decoding: it is the text between [data:]
    and the first semicolon or comma, or [text/plain] when that text is
    empty and a default applies; it holds no comma, no semicolon and no
    line terminator. *)
Theorem mime_verbatim (s : jsstring) (r : Info) :
  parseSync s = Ok r ->
  exists m rest,
    s = str "data:" ++ m ++ rest
    /\ (exists c t, rest = c :: t /\ (c = ch ";" \/ c = ch ","))
    /\ mime_safe m = true
    /\ (mime r = Some m \/ (m = [] /\ mime r = Some (str "text/plain"))).
Proof.
  intros Hr.
  apply parseSync_ok in Hr as (b & m & ps & text & payload & Hh & _ & ->).
  cbn [mime].
  apply parse_header_facts in Hh
    as (_ & Hsafe & _ & _ & g1 & rest & Hm & -> & Hrest & _).
  apply match_dataurl_spec in Hm as (-> & _ & _).
  exists m, (rest ++ ch "," :: text).
  split; [ rewrite <- !app_assoc; reflexivity | ].
  split; [ | split; [ exact Hsafe | ] ].
  - destruct Hrest as [ -> | (t & ->) ]; simpl; eauto.
  - destruct (apply_defaults_fst m ps) as [ -> | [-> ->] ]; auto.
Qed.

Lemma mime_verbatim_witness :
  parseSync (str "data:text%2Fplain;a=b,x")
  = Ok {| base64 := None;
          mime := Some (str "text%2Fplain");
          parameters := [(str "a", str "b")];
          data := VBuffer [x78] |}
  /\ exists m rest,
       str "data:text%2Fplain;a=b,x" = str "data:" ++ m ++ rest
       /\ (exists c t, rest = c :: t /\ (c = ch ";" \/ c = ch ","))
       /\ mime_safe m = true
       /\ (Some (str "text%2Fplain") = Some m
           \/ (m = [] /\ Some (str "text%2Fplain")
                          = Some (str "text/plain"))).
Proof.
  split; [ reflexivity | ].
  exact (@mime_verbatim
           (str "data:text%2Fplain;a=b,x")
           {| base64 := None;
              mime := Some (str "text%2Fplain");
              parameters := [(str "a", str "b")];
              data := VBuffer [x78] |}
           eq_refl).
Defined.

(* ================================================================= *)
(** ** Composing what was parsed *)

Section Recompose.

(** The text composed from good fields parses back to these fields. *)
Lemma compose_then_parse b64 m ps payload :
  mime_safe m = true ->
  (truthy b64 = false -> ps = [] -> m <> str "base64") ->
  NoDup (Object_keys ps) -> parameters_ok ps = true ->
  (m <> [] \/ (ps <> [] /\ has_own ps (str "charset") = false)) ->
  exists s,
    composeSync {| base64 := b64; mime := Some m;
                   parameters := ps; data := VBuffer payload |} = Ok s
    /\ parseSync s
       = Ok {| base64 := if truthy b64 then Some true else None;
               mime := Some m;
               parameters := ps;
               data := VBuffer payload |}.
Proof.
  intros Hsafe Hb64 Hnd Hok Hdef.
  rewrite (@composeSync_tokens
             {| base64 := b64; mime := Some m;
                parameters := ps; data := VBuffer payload |}
             payload eq_refl).
  cbn [mime_or_empty mime parameters base64].
  eexists. split; [ reflexivity | ].
  unfold parseSync.
  rewrite parse_header_composed;
    try assumption; [ | apply encoded_payload_chars ].
  cbn [bind]. rewrite apply_defaults_keeps by assumption.
  destruct (truthy b64); cbn [truthy].
  - rewrite base64_decode_encode_buffer. reflexivity.
  - rewrite pct_decode_encode_buffer. reflexivity.
Qed.

End Recompose.

Lemma recompose (s : jsstring) (r : Info) :
  parseSync s = Ok r ->
  ~ (mime r = Some (str "base64") /\ parameters r = []
     /\ base64 r = None) ->
  exists s', composeSync r = Ok s' /\ parseSync s' = Ok r.
Proof.
  intros Hr Hnot.
  apply parseSync_ok in Hr as (b & m & ps & text & payload & Hh & _ & ->).
  cbn [mime parameters base64] in Hnot.
  apply parse_header_facts in Hh
    as (Hb & Hsafe & Hnd & Hok & _).
  destruct (@apply_defaults_inv m ps Hnd Hok) as [Hnd' Hok'].
  destruct (apply_defaults m ps) as [m' ps'] eqn:Ed.
  cbn [fst snd] in *.
  assert (Hsafe' : mime_safe m' = true).
  { pose proof (apply_defaults_fst m ps) as H. rewrite Ed in H.
    cbn [fst] in H. destruct H as [ -> | [_ ->] ];
      [ exact Hsafe | reflexivity ]. }
  destruct (@compose_then_parse b m' ps' payload) as (s' & Hc & Hp);
    try assumption.
  - intros Ht -> ->. apply Hnot.
    destruct Hb as [ -> | -> ]; [ discriminate Ht | auto ].
  - apply apply_defaults_mime in Ed
      as [ H | (_ & _ & -> & H1 & H2) ]; [ auto | ].
    right. split; [ exact H1 | ].
    unfold has_property in H2. apply orb_false_iff in H2 as [H2 _].
    exact H2.
  - exists s'. split; [ exact Hc | ].
    rewrite Hp. destruct Hb as [ -> | -> ]; reflexivity.
Qed.



(* ================================================================= *)
(** ** More on the percent codec *)

Section PctCodec.

Lemma pct_encode_byte_length x :
  length (pct_encode_byte [] x) = if is_escaped_byte x then 3%nat else 1%nat.
Proof.
  destruct x; reflexivity.
Qed.

Lemma pct_encode_length a :
  length (pct_encode (ArgBuffer a))
  = (length a + 2 * length (filter is_escaped_byte a))%nat.
Proof.
  rewrite pct_encode_concat.
  induction a as [ | x a IH ]; [ reflexivity | ].
  cbn [List.map concat filter]. rewrite length_app, IH, pct_encode_byte_length.
  destruct (is_escaped_byte x); simpl; lia.
Qed.

(** Text [pct_decode] accepts is a sequence of tokens, and the result
    is their bytes. *)
Lemma pct_decode_ok_tokens s x :
  pct_decode s = Ok x ->
  exists toks,
    Forall pct_token toks /\ s = concat toks
    /\ x = concat (List.map token_byte toks).
Proof.
  intros H.
  assert (Hw : pct_wellformed s).
  { apply pct_wellformed_lang, full_match_lang.
    unfold pct_decode in H.
    destruct (full_match pct_correctly_encoded s);
      [ reflexivity | discriminate H ]. }
  destruct Hw as (toks & Ht & ->).
  rewrite pct_decode_tokens in H by assumption. injection H as <-.
  exists toks. auto.
Qed.

Lemma pct_token_length t :
  pct_token t ->
  (length (token_byte t) + 2 * count_char (ch "%") t = length t)%nat.
Proof.
  intros [ c Hc | h1 h2 H1 H2 ].
  - assert (E : count_char (ch "%") [c] = 0%nat).
    { apply count_char_zero. repeat constructor.
      intros ->. discriminate Hc. }
    rewrite E. reflexivity.
  - assert (E : count_char (ch "%") [h1; h2] = 0%nat).
    { apply count_char_zero.
      repeat constructor; intros ->; discriminate. }
    change [ch "%"; h1; h2] with ([ch "%"] ++ [h1; h2]).
    rewrite count_char_app, E. reflexivity.
Qed.

End PctCodec.

(** X8: [pct_encode] works byte by byte: the text of two buffers one
    after the other is the text of the first followed by the text of
    the second, and a buffer gives one character for every byte and two
    more for every byte that is not an unreserved character. *)
Theorem pct_encode_bytewise (a b : bytes) :
  pct_encode (ArgBuffer (a ++ b))
  = pct_encode (ArgBuffer a) ++ pct_encode (ArgBuffer b)
  /\ length (pct_encode (ArgBuffer a))
     = (length a + 2 * length (filter is_escaped_byte a))%nat.
Proof.
  split; [ | apply pct_encode_length ].
  rewrite !pct_encode_concat, map_app, concat_app. reflexivity.
Qed.

(** X9: when [pct_decode] accepts two texts, it accepts the one
    followed by the other and returns the bytes of the first followed
    by the bytes of the second. *)
Theorem pct_decode_app (s1 s2 : jsstring) (x1 x2 : bytes) :
  pct_decode s1 = Ok x1 -> pct_decode s2 = Ok x2 ->
  pct_decode (s1 ++ s2) = Ok (x1 ++ x2).
Proof.
  intros H1 H2.
  apply pct_decode_ok_tokens in H1 as (t1 & Ht1 & -> & ->).
  apply pct_decode_ok_tokens in H2 as (t2 & Ht2 & -> & ->).
  rewrite <- concat_app, <- concat_app, <- map_app.
  apply pct_decode_tokens. apply Forall_app. auto.
Qed.

Lemma pct_decode_app_witness :
  pct_decode (str "a%2") = Throw malformed_data
  /\ pct_decode (str "a") = Ok [x61]
  /\ pct_decode (str "%20") = Ok [x20]
  /\ pct_decode (str "a" ++ str "%20") = Ok ([x61] ++ [x20]).
Proof.
  split; [ reflexivity | ].
  split; [ reflexivity | ]. split; [ reflexivity | ].
  exact (@pct_decode_app (str "a") (str "%20") [x61] [x20]
           eq_refl eq_refl).
Defined.

(** X10: the buffer [pct_decode] returns has one byte for every
    character of the text that is not part of an escape, and one for
    every escape: its length is the length of the text less twice the
    number of percent signs. *)
Theorem pct_decode_length (s : jsstring) (x : bytes) :
  pct_decode s = Ok x ->
  (length x + 2 * count_char (ch "%") s = length s)%nat.
Proof.
  intros H. apply pct_decode_ok_tokens in H as (toks & Ht & -> & ->).
  induction Ht as [ | t toks Htok _ IH ]; [ reflexivity | ].
  cbn [List.map concat].
  rewrite !length_app, count_char_app.
  pose proof (pct_token_length Htok). lia.
Qed.

Lemma pct_decode_length_witness :
  pct_decode (str "a%20b") = Ok [x61; x20; x62]
  /\ (length [x61; x20; x62] + 2 * count_char (ch "%") (str "a%20b")
      = length (str "a%20b"))%nat.
Proof.
  split; [ reflexivity | ].
  exact (@pct_decode_length (str "a%20b") [x61; x20; x62] eq_refl).
Defined.

(** X11: the token [composeSync] writes for a parameter whose name and
    value are well-formed UTF-16 is read back by the loop of
    [parseSync] as that name and that value, whatever characters they
    hold: the parameter is stored, unless the name is already in the
    object or inherited by it. *)
Theorem parameter_token_roundtrip (acc : jsobject) (k v : jsstring) :
  well_formed_utf16 k = true -> well_formed_utf16 v = true ->
  parse_parameter acc (compose_parameter (k, v))
  = Ok (if has_property acc k then acc else set_own acc k v).
Proof.
  intros Hk Hv. unfold parse_parameter.
  rewrite split_compose_parameter. cbn [fst snd].
  rewrite !pct_roundtrip_arg. cbn [bind Buffer_from].
  rewrite !Buffer_toString_utf8 by assumption.
  destruct (has_property acc k); reflexivity.
Qed.

Lemma parameter_token_roundtrip_witness :
  well_formed_utf16 (str "a;b=") = true
  /\ well_formed_utf16 [0x20AC; 0xD83D; 0xDE00] = true
  /\ parse_parameter [] (compose_parameter (str "a;b=", [0x20AC; 0xD83D; 0xDE00]))
     = Ok [(str "a;b=", [0x20AC; 0xD83D; 0xDE00])].
Proof.
  split; [ reflexivity | ]. split; [ reflexivity | ].
  exact (@parameter_token_roundtrip [] (str "a;b=")
           [0x20AC; 0xD83D; 0xDE00] eq_refl eq_refl).
Defined.

(* ================================================================= *)
(** ** The promise-returning wrappers *)



(* ================================================================= *)
(** ** What composeSync writes *)

Section ComposedText.

Lemma is_pct_char_ascii c : is_pct_char c = true -> c < 128.
Proof.
  unfold is_pct_char. intros H. class_cases.
Qed.

Lemma is_base64_digit_ascii c : is_base64_digit c = true -> c < 128.
Proof.
  intros H. class_cases.
Qed.

Lemma pct_encode_ascii a : Forall (fun c => c < 128) (pct_encode a).
Proof.
  eapply Forall_impl; [ | apply pct_encode_chars ].
  apply is_pct_char_ascii.
Qed.

Lemma base64_encode_ascii a : Forall (fun c => c < 128) (base64_encode a).
Proof.
  unfold base64_encode.
  destruct (Buffer_toString_base64_wellformed (Buffer_from a))
    as (body & pad & -> & Hb & Hp).
  apply Forall_app. split.
  - eapply Forall_impl; [ | exact Hb ]. apply is_base64_digit_ascii.
  - destruct Hp as [-> | [-> | ->]]; repeat constructor.
Qed.

Lemma Ok_inj (A : Type) (a b : A) : Ok a = Ok b -> a = b.
Proof.
  intros H. injection H as H. exact H.
Qed.

Lemma composed_tokens_ascii m ps flag :
  Forall (fun c => c < 128) m ->
  Forall (Forall (fun c => c < 128)) (composed_tokens m ps flag).
Proof.
  intros Hm. unfold composed_tokens. apply Forall_app. split.
  - constructor; [ exact Hm | ].
    apply Forall_forall. intros t Ht.
    apply in_map_iff in Ht as (kv & <- & _).
    unfold compose_parameter.
    apply Forall_app. split; [ apply pct_encode_ascii | ].
    apply Forall_app. split; [ | apply pct_encode_ascii ].
    repeat constructor.
  - destruct flag; repeat constructor.
Qed.

End ComposedText.

(** X13: [composeSync] writes ASCII, the media type apart: when the
    media type of the record holds no code unit above 127, neither does
    the composed text, whatever the parameters and the payload hold. *)
Theorem composeSync_ascii (info : Info) (s : jsstring) :
  composeSync info = Ok s ->
  Forall (fun c => c < 128) (mime_or_empty (mime info)) ->
  Forall (fun c => c < 128) s.
Proof.
  intros Hc Hm.
  assert (Hd : exists b, data info = VBuffer b).
  { unfold composeSync in Hc.
    destruct (data info); try discriminate Hc. eauto. }
  destruct Hd as [b Hd].
  rewrite (composeSync_tokens info Hd) in Hc. apply Ok_inj in Hc.
  rewrite <- Hc.
  apply Forall_app. split; [ repeat constructor | ].
  apply Forall_app. split.
  - apply Forall_join; [ repeat constructor | ].
    apply composed_tokens_ascii. exact Hm.
  - apply Forall_app. split; [ repeat constructor | ].
    destruct (truthy (base64 info));
      [ apply base64_encode_ascii | apply pct_encode_ascii ].
Qed.

Lemma composeSync_ascii_witness :
  composeSync {| base64 := None;
                 mime := Some (str "text/plain");
                 parameters := [(str "n", [0x20AC])];
                 data := VBuffer [xff] |}
  = Ok (str "data:text/plain;n=%e2%82%ac,%ff")
  /\ Forall (fun c => c < 128) (str "text/plain")
  /\ Forall (fun c => c < 128) (str "data:text/plain;n=%e2%82%ac,%ff").
Proof.
  assert (Hm : Forall (fun c => c < 128) (str "text/plain")).
  { repeat constructor. }
  split; [ reflexivity | ]. split; [ exact Hm | ].
  exact (@composeSync_ascii
           {| base64 := None;
              mime := Some (str "text/plain");
              parameters := [(str "n", [0x20AC])];
              data := VBuffer [xff] |}
           (str "data:text/plain;n=%e2%82%ac,%ff") eq_refl Hm).
Defined.

(* ================================================================= *)
(** ** The size of what base64_decode returns *)

Section Base64Size.

Lemma list_ind4 (A : Type) (P : list A -> Prop) :
  P [] -> (forall a, P [a]) -> (forall a b, P [a; b]) ->
  (forall a b c, P [a; b; c]) ->
  (forall a b c d l, P l -> P (a :: b :: c :: d :: l)) ->
  forall l, P l.
Proof.
  intros H0 H1 H2 H3 H4 l.
  assert (H : P l /\ (forall a, P (a :: l)) /\ (forall a b, P (a :: b :: l))
              /\ (forall a b c, P (a :: b :: c :: l))).
  { induction l as [ | x l (I0 & I1 & I2 & I3) ]; auto 6. }
  apply H.
Qed.

(** Four digits give three bytes, and the digits left over give one
    byte less than there are. *)
Lemma base64_bytes_length l :
  exists q r,
    length l = (4 * q + r)%nat /\ (r < 4)%nat
    /\ length (base64_bytes l)
       = (3 * q + match r with 2 => 1 | 3 => 2 | _ => 0 end)%nat.
Proof.
  induction l as [ | a | a b | a b c | a b c d l (q & r & E & Hr & IH) ]
    using list_ind4.
  - exists 0%nat, 0%nat. repeat split; lia.
  - exists 0%nat, 1%nat. repeat split; lia.
  - exists 0%nat, 2%nat. repeat split; lia.
  - exists 0%nat, 3%nat. repeat split; lia.
  - exists (S q), r. cbn [base64_bytes length]. rewrite E, IH.
    repeat split; lia.
Qed.

Lemma base64_digit_read c :
  is_base64_digit c = true ->
  is_char "=" c = false /\ exists v, base64_value c = Some v.
Proof.
  intros H. split.
  - class_cases.
  - unfold base64_value, is_base64_digit, in_range, is_char in *.
    ch_values. cmp_cases; cbn [andb orb] in *; try discriminate; eauto.
Qed.

Lemma base64_sextets_length body pad :
  Forall (fun c => is_base64_digit c = true) body ->
  pad = [] \/ pad = [ch "="] \/ pad = [ch "="; ch "="] ->
  length (base64_sextets (body ++ pad)) = length body.
Proof.
  intros Hb Hp. induction Hb as [ | c body Hc _ IH ]; simpl app.
  - destruct Hp as [-> | [-> | ->]]; reflexivity.
  - cbn [base64_sextets].
    destruct (base64_digit_read c Hc) as [-> (v & ->)].
    simpl. rewrite IH. reflexivity.
Qed.

Lemma count_pad body pad :
  Forall (fun c => is_base64_digit c = true) body ->
  pad = [] \/ pad = [ch "="] \/ pad = [ch "="; ch "="] ->
  count_char (ch "=") (body ++ pad) = length pad
  /\ (length pad <= 2)%nat.
Proof.
  intros Hb Hp. rewrite count_char_app.
  rewrite (@count_char_zero (ch "=") body).
  - destruct Hp as [-> | [-> | ->]]; simpl; split; (reflexivity || lia).
  - eapply Forall_impl; [ | exact Hb ].
    intros c Hc ->. discriminate Hc.
Qed.

Lemma base64_decode_ok s b :
  base64_decode s = Ok b ->
  N.of_nat (length s) mod 4 = 0 /\ base64_wellformed s
  /\ b = Buffer_from_base64 s.
Proof.
  unfold base64_decode.
  destruct (N.eqb_spec (N.of_nat (length s) mod 4) 0) as [ E | E ];
    simpl; [ | discriminate ].
  destruct (full_match base64_correctly_encoded s) eqn:Em; simpl;
    [ | discriminate ].
  intros H. injection H as <-.
  apply full_match_lang, base64_wellformed_lang in Em. auto.
Qed.

End Base64Size.

(** X14: the buffer [base64_decode] returns has three bytes for every
    four characters of the text, less one byte for every [=]: four
    times its length and four times the number of [=] make three times
    the length of the text. *)
Theorem base64_decode_length (s : jsstring) (b : bytes) :
  base64_decode s = Ok b ->
  (4 * length b + 4 * count_char (ch "=") s = 3 * length s)%nat.
Proof.
  intros H. apply base64_decode_ok in H as (Hlen & (body & pad & -> & Hb & Hp) & ->).
  destruct (count_pad Hb Hp) as [-> Hpad].
  unfold Buffer_from_base64.
  destruct (base64_bytes_length (base64_sextets (body ++ pad)))
    as (q & r & E & Hr & ->).
  rewrite base64_sextets_length in E by assumption.
  rewrite length_app in *.
  assert (Hk : exists k, (length body + length pad = 4 * k)%nat).
  { exists (N.to_nat (N.of_nat (length body + length pad) / 4)).
    div_lia. }
  destruct Hk as [k Hk].
  destruct r as [ | [ | [ | [ | r ] ] ] ]; lia.
Qed.

Lemma base64_decode_length_witness :
  base64_decode (str "aGVsbG8=") = Ok [x68; x65; x6c; x6c; x6f]
  /\ (4 * length [x68; x65; x6c; x6c; x6f]
      + 4 * count_char (ch "=") (str "aGVsbG8=")
      = 3 * length (str "aGVsbG8="))%nat.
Proof.
  split; [ reflexivity | ].
  exact (@base64_decode_length (str "aGVsbG8=") [x68; x65; x6c; x6c; x6f]
           eq_refl).
Defined.
